(** * OpenZGY [MinMaxScan]: minimum / maximum scan of a strided float buffer

    A shallow embedding of [src/openzgy/impl/minmaxscan.cpp] together with
    the properties of its two entry points [scanArray] and
    [unsafeScanArray].

    A C [float] is modelled by its IEEE-754 binary32 bit pattern (a [Z]
    below [2^32]); the only floating-point operations the file performs are
    comparisons, which are taken from the standard library's [SpecFloat]
    after decoding the bit pattern.  An [__m128] register is a record of
    four such lanes and every SSE intrinsic used by the file is written
    out lane by lane.  [size_t] is [N] with its wrap-around modulo [2^64]
    spelled out, and reading the buffer outside its bounds yields [None]. *)

From Stdlib Require Import ZArith NArith List Bool Lia.
From Stdlib Require Import Floats.SpecFloat.
From stdpp Require Import base option list.

Local Open Scope Z_scope.

(* ================================================================== *)
(** ** IEEE-754 binary32 values as bit patterns *)

Module IEEE32.

(** The 32 bits of a C [float]. *)
Abbreviation float32 := Z (only parsing).

Definition word32 (x : Z) : Prop := 0 <= x < 2 ^ 32.

Definition sign_bit (x : float32) : bool := Z.testbit x 31.
Definition biased_exp (x : float32) : Z := Z.land (Z.shiftr x 23) 0xFF.
Definition fraction (x : float32) : Z := Z.land x 0x7FFFFF.

(** Decoding of the three fields (precision 24, [emax] 128, hence
    smallest exponent [-149] and bias [127 + 23 = 150] on the integral
    significand). *)
Definition decode (x : float32) : spec_float :=
  let s := sign_bit x in
  let e := biased_exp x in
  let f := fraction x in
  if e =? 0 then
    match f with
    | Zpos p => S754_finite s p (-149)
    | _ => S754_zero s
    end
  else if e =? 255 then
    match f with
    | Z0 => S754_infinity s
    | _ => S754_nan
    end
  else
    match f + 2 ^ 23 with
    | Zpos p => S754_finite s p (e - 150)
    | _ => S754_nan
    end.

(** The C operators [<], [>], [==] and [<=] on [float]. *)
Definition flt (a b : float32) : bool := SFltb (decode a) (decode b).
Definition fgt (a b : float32) : bool := SFltb (decode b) (decode a).
Definition feq (a b : float32) : bool := SFeqb (decode a) (decode b).
Definition fle (a b : float32) : bool := SFleb (decode a) (decode b).

Definition is_nan (x : float32) : bool :=
  match decode x with S754_nan => true | _ => false end.
Definition is_inf (x : float32) : bool :=
  match decode x with S754_infinity _ => true | _ => false end.
Definition is_finite (x : float32) : bool :=
  match decode x with
  | S754_zero _ | S754_finite _ _ _ => true
  | _ => false
  end.

(** [std::numeric_limits<float>::infinity()] and its negation. *)
Definition infinity : float32 := 0x7F800000.
Definition neg_infinity : float32 := 0xFF800000.

(** Bit patterns of a few values used in the examples:
    1, 2, 3, 5, 9, a quiet NaN and the negative zero. *)
Definition one : float32 := 0x3F800000.
Definition two : float32 := 0x40000000.
Definition three : float32 := 0x40400000.
Definition five : float32 := 0x40A00000.
Definition nine : float32 := 0x41100000.
Definition quiet_nan : float32 := 0x7FC00000.
Definition neg_zero : float32 := 0x80000000.

(** Order-preserving integer image of a bit pattern: the magnitude bits
    with the sign applied.  Only used in proofs and statements. *)
Definition magnitude (x : float32) : Z := Z.land x 0x7FFFFFFF.
Definition key (x : float32) : Z :=
  if sign_bit x then - magnitude x else magnitude x.

End IEEE32.

(* ================================================================== *)
(** ** The SSE intrinsics used by the file *)

Module SSE2.
Import IEEE32.

Record m128 := mk128 { lane0 : float32; lane1 : float32;
                       lane2 : float32; lane3 : float32 }.

Definition map2 (f : float32 -> float32 -> float32) (a b : m128) : m128 :=
  mk128 (f (lane0 a) (lane0 b)) (f (lane1 a) (lane1 b))
        (f (lane2 a) (lane2 b)) (f (lane3 a) (lane3 b)).

(** Low lane from [f], upper three lanes copied from the first operand. *)
Definition low2 (f : float32 -> float32 -> float32) (a b : m128) : m128 :=
  mk128 (f (lane0 a) (lane0 b)) (lane1 a) (lane2 a) (lane3 a).

(** MINPS / MAXPS on one lane: [a < b ? a : b] and [a > b ? a : b]; the
    second operand is returned when either is a NaN or both are zeros. *)
Definition min_lane (a b : float32) : float32 := if flt a b then a else b.
Definition max_lane (a b : float32) : float32 := if fgt a b then a else b.

Definition all_ones : Z := 0xFFFFFFFF.
Definition cmpord_lane (a b : float32) : Z :=
  if is_nan a || is_nan b then 0 else all_ones.
Definition cmpneq_lane (a b : float32) : Z :=
  if feq a b then 0 else all_ones.
Definition andnot_lane (a b : Z) : Z := Z.land (Z.lxor a all_ones) b.

Definition _mm_set_ss (x : float32) : m128 := mk128 x 0 0 0.
Definition _mm_set1_ps (x : float32) : m128 := mk128 x x x x.
Definition _mm_store_ss (v : m128) : float32 := lane0 v.

Definition _mm_min_ps := map2 min_lane.
Definition _mm_max_ps := map2 max_lane.
Definition _mm_min_ss := low2 min_lane.
Definition _mm_max_ss := low2 max_lane.

Definition _mm_cmpord_ps := map2 cmpord_lane.
Definition _mm_cmpneq_ps := map2 cmpneq_lane.
Definition _mm_and_ps := map2 Z.land.
Definition _mm_or_ps := map2 Z.lor.
Definition _mm_andnot_ps := map2 andnot_lane.

Definition _MM_SHUFFLE (z y x w : Z) : Z :=
  Z.lor (Z.lor (Z.lor (Z.shiftl z 6) (Z.shiftl y 4)) (Z.shiftl x 2)) w.

Definition select (a : m128) (k : Z) : float32 :=
  if k =? 0 then lane0 a
  else if k =? 1 then lane1 a
  else if k =? 2 then lane2 a
  else lane3 a.

(** SHUFPS: the two low lanes are picked from [a], the two high ones
    from [b], by the successive 2-bit fields of the immediate. *)
Definition _mm_shuffle_ps (a b : m128) (imm : Z) : m128 :=
  mk128 (select a (Z.land imm 3))
        (select a (Z.land (Z.shiftr imm 2) 3))
        (select b (Z.land (Z.shiftr imm 4) 3))
        (select b (Z.land (Z.shiftr imm 6) 3)).

(** [values[index]]; [None] outside the buffer. *)
Definition load (values : list float32) (index : N) : option float32 :=
  values !! N.to_nat index.

(** [_mm_loadu_ps(&values[i])]: four consecutive floats. *)
Definition _mm_loadu_ps (values : list float32) (i : N) : option m128 :=
  a ← load values i;
  b ← load values (i + 1)%N;
  c ← load values (i + 2)%N;
  d ← load values (i + 3)%N;
  Some (mk128 a b c d).

End SSE2.

(* ================================================================== *)
(** ** The functions of minmaxscan.cpp *)

Module MinMaxScan.
Import IEEE32 SSE2.

(** [size_t] arithmetic wraps modulo [2^64] (the 64-bit targets of the
    file; nothing below depends on the width beyond its being fixed). *)
Definition SIZE_MOD : N := (2 ^ 64)%N.
Definition wrap (n : N) : N := (n mod SIZE_MOD)%N.

(** [for (size_t i = start; i < bound; i += step) acc = body(i, acc);]
    [None] when the body fails or the fuel does not cover the trip
    count. *)
Fixpoint for_range {A : Type} (body : N -> A -> option A) (fuel : nat)
    (i bound step : N) (acc : A) : option A :=
  if (i <? bound)%N then
    match fuel with
    | O => None
    | S fuel' =>
        acc' ← body i acc;
        for_range body fuel' (wrap (i + step)) bound step acc'
    end
  else Some acc.

(** The three loop shapes of the file.  [strided_body] is
    [{ iter(values[index]); index += stride; }] with [index] carried in
    the loop state, [vector_body] is [{ iter(_mm_loadu_ps(&values[i])); }]
    and [single_body] is [{ iter(values[i]); }]. *)
Definition strided_body {S : Type} (iter : float32 -> S -> S)
    (values : list float32) (stride : N) (_ : N) (st : N * S)
    : option (N * S) :=
  let '(index, s) := st in
  v ← load values index;
  Some (wrap (index + stride), iter v s).

Definition vector_body {S : Type} (iter : m128 -> S -> S)
    (values : list float32) (i : N) (s : S) : option S :=
  temp ← _mm_loadu_ps values i;
  Some (iter temp s).

Definition single_body {S : Type} (iter : float32 -> S -> S)
    (values : list float32) (i : N) (s : S) : option S :=
  v ← load values i;
  Some (iter v s).

Definition cpu_isFinite (val : float32) : bool :=
  let punnedVal := val in
  Z.land punnedVal 0x7FFFFFFF <? 0x7F800000.

Definition cpu_stridedMinMax_iter (v : float32)
    (st : float32 * float32) : float32 * float32 :=
  let '(minValue, maxValue) := st in
  let minValue := if flt v minValue then v else minValue in
  let maxValue := if fgt v maxValue then v else maxValue in
  (minValue, maxValue).

Definition cpu_stridedMinMax (values : list float32) (size stride : N)
    : option (float32 * float32) :=
  let index := 0%N in
  let minValue := infinity in
  let maxValue := neg_infinity in
  st ← for_range (strided_body cpu_stridedMinMax_iter values stride)
         (N.to_nat size) 0%N size 1%N (index, (minValue, maxValue));
  Some st.2.

Definition cpu_stridedMinMaxSafe_iter (v : float32)
    (st : float32 * float32) : float32 * float32 :=
  let '(minValue, maxValue) := st in
  if cpu_isFinite v then
    let minValue := if flt v minValue then v else minValue in
    let maxValue := if fgt v maxValue then v else maxValue in
    (minValue, maxValue)
  else (minValue, maxValue).

Definition cpu_stridedMinMaxSafe (values : list float32) (size stride : N)
    : option (float32 * float32) :=
  let index := 0%N in
  let minValue := infinity in
  let maxValue := neg_infinity in
  st ← for_range (strided_body cpu_stridedMinMaxSafe_iter values stride)
         (N.to_nat size) 0%N size 1%N (index, (minValue, maxValue));
  Some st.2.

Definition sse2_reduceMinMax (minVec maxVec : m128) : float32 * float32 :=
  let minVec := _mm_min_ps minVec
                  (_mm_shuffle_ps minVec minVec (_MM_SHUFFLE 2 1 0 3)) in
  let minVec := _mm_min_ps minVec
                  (_mm_shuffle_ps minVec minVec (_MM_SHUFFLE 1 0 3 2)) in
  let maxVec := _mm_max_ps maxVec
                  (_mm_shuffle_ps maxVec maxVec (_MM_SHUFFLE 2 1 0 3)) in
  let maxVec := _mm_max_ps maxVec
                  (_mm_shuffle_ps maxVec maxVec (_MM_SHUFFLE 1 0 3 2)) in
  (_mm_store_ss minVec, _mm_store_ss maxVec).

(** Body of the loop of [sse2_stridedMinMax]; the remainder loop of
    [sse2_vectorMinMax] has the same three statements. *)
Definition sse2_stridedMinMax_iter (v : float32) (st : m128 * m128)
    : m128 * m128 :=
  let '(minVal, maxVal) := st in
  let temp := _mm_set_ss v in
  let minVal := _mm_min_ss minVal temp in
  let maxVal := _mm_max_ss maxVal temp in
  (minVal, maxVal).

Definition sse2_stridedMinMax (values : list float32) (size stride : N)
    : option (float32 * float32) :=
  let index := 0%N in
  let minVal := _mm_set_ss infinity in
  let maxVal := _mm_set_ss neg_infinity in
  st ← for_range (strided_body sse2_stridedMinMax_iter values stride)
         (N.to_nat size) 0%N size 1%N (index, (minVal, maxVal));
  let '(minVal, maxVal) := st.2 in
  Some (_mm_store_ss minVal, _mm_store_ss maxVal).

Definition sse2_vectorMinMax_iter (temp : m128) (st : m128 * m128)
    : m128 * m128 :=
  let '(minVals, maxVals) := st in
  let minVals := _mm_min_ps temp minVals in
  let maxVals := _mm_max_ps temp maxVals in
  (minVals, maxVals).

Definition sse2_vectorMinMax (values : list float32) (size : N)
    : option (float32 * float32) :=
  let unrollSize := wrap ((size / 4) * 4) in
  minVals ← _mm_loadu_ps values 0%N;
  let maxVals := minVals in
  st ← for_range (vector_body sse2_vectorMinMax_iter values)
         (N.to_nat size) 4%N unrollSize 4%N (minVals, maxVals);
  st ← for_range (single_body sse2_stridedMinMax_iter values)
         (N.to_nat size) unrollSize size 1%N st;
  let '(minVals, maxVals) := st in
  Some (sse2_reduceMinMax minVals maxVals).

(** The validity mask and the masked candidate of the NaN-safe vector
    loops: [isValid] and [maskedMinTemp] / [maskedMaxTemp]. *)
Definition isValid_mask (temp : m128) : m128 :=
  let pInfinity := _mm_set1_ps infinity in
  let nInfinity := _mm_set1_ps neg_infinity in
  _mm_and_ps (_mm_and_ps (_mm_cmpord_ps temp temp)
                         (_mm_cmpneq_ps temp pInfinity))
             (_mm_cmpneq_ps temp nInfinity).

Definition masked (isValid temp running : m128) : m128 :=
  _mm_or_ps (_mm_and_ps isValid temp) (_mm_andnot_ps isValid running).

(** Body of the loop of [sse2_stridedMinMaxSafe]; the remainder loop of
    [sse2_vectorMinMaxSafe] has the same statements. *)
Definition sse2_stridedMinMaxSafe_iter (v : float32) (st : m128 * m128)
    : m128 * m128 :=
  let '(minVal, maxVal) := st in
  let temp := _mm_set_ss v in
  let isValid := isValid_mask temp in
  let maskedMinTemp := masked isValid temp minVal in
  let maskedMaxTemp := masked isValid temp maxVal in
  let minVal := _mm_min_ss minVal maskedMinTemp in
  let maxVal := _mm_max_ss maxVal maskedMaxTemp in
  (minVal, maxVal).

Definition sse2_stridedMinMaxSafe (values : list float32) (size stride : N)
    : option (float32 * float32) :=
  let index := 0%N in
  let minVal := _mm_set_ss infinity in
  let maxVal := _mm_set_ss neg_infinity in
  st ← for_range (strided_body sse2_stridedMinMaxSafe_iter values stride)
         (N.to_nat size) 0%N size 1%N (index, (minVal, maxVal));
  let '(minVal, maxVal) := st.2 in
  Some (_mm_store_ss minVal, _mm_store_ss maxVal).

Definition sse2_vectorMinMaxSafe_iter (temp : m128) (st : m128 * m128)
    : m128 * m128 :=
  let '(minVals, maxVals) := st in
  let isValid := isValid_mask temp in
  let maskedMinTemp := masked isValid temp minVals in
  let maskedMaxTemp := masked isValid temp maxVals in
  let minVals := _mm_min_ps maskedMinTemp minVals in
  let maxVals := _mm_max_ps maskedMaxTemp maxVals in
  (minVals, maxVals).

Definition sse2_vectorMinMaxSafe (values : list float32) (size : N)
    : option (float32 * float32) :=
  let unrollSize := wrap ((size / 4) * 4) in
  let minVals := _mm_set1_ps infinity in
  let maxVals := _mm_set1_ps neg_infinity in
  st ← for_range (vector_body sse2_vectorMinMaxSafe_iter values)
         (N.to_nat size) 0%N unrollSize 4%N (minVals, maxVals);
  st ← for_range (single_body sse2_stridedMinMaxSafe_iter values)
         (N.to_nat size) unrollSize size 1%N st;
  let '(minVals, maxVals) := st in
  Some (sse2_reduceMinMax minVals maxVals).

(** The three implementations an entry point can hand the call to. *)
Inductive path := Scalar | Strided | Bulk.

(** The [#ifdef] / [if] chain shared verbatim by [unsafeScanArray] and
    [scanArray].  [USE_SSE2_INSTRUCTIONS] is the build-time macro and
    [mode] the cached value of [hack_sse2_mode()]. *)
Definition dispatch (USE_SSE2_INSTRUCTIONS : bool) (mode : Z)
    (size stride : N) : path :=
  if USE_SSE2_INSTRUCTIONS then
    if (mode =? 2) || (mode =? 3) then Scalar
    else if (mode =? 1) || negb (stride =? 1)%N || (size <=? 8)%N
         then Strided
         else Bulk
  else Scalar.

Definition unsafeScanArray (USE_SSE2_INSTRUCTIONS : bool) (mode : Z)
    (values : list float32) (size stride : N)
    : option (float32 * float32) :=
  match dispatch USE_SSE2_INSTRUCTIONS mode size stride with
  | Scalar => cpu_stridedMinMax values size stride
  | Strided => sse2_stridedMinMax values size stride
  | Bulk => sse2_vectorMinMax values size
  end.

Definition scanArray (USE_SSE2_INSTRUCTIONS : bool) (mode : Z)
    (values : list float32) (size stride : N)
    : option (float32 * float32) :=
  match dispatch USE_SSE2_INSTRUCTIONS mode size stride with
  | Scalar => cpu_stridedMinMaxSafe values size stride
  | Strided => sse2_stridedMinMaxSafe values size stride
  | Bulk => sse2_vectorMinMaxSafe values size
  end.

Definition has_sse2 (USE_SSE2_INSTRUCTIONS : bool) (mode : Z) : bool :=
  if USE_SSE2_INSTRUCTIONS then negb (mode =? 2) && negb (mode =? 3)
  else false.


End MinMaxScan.

(* ================================================================== *)
(** ** Vocabulary of the statements *)

Module Spec.
Import IEEE32 SSE2 MinMaxScan.

(** The elements at buffer offsets [0], [stride], ...,
    [(size-1)*stride], in visiting order. *)
Definition visited (values : list float32) (size stride : N)
    : list float32 :=
  map (fun i => nth (i * N.to_nat stride) values 0)
      (seq 0 (N.to_nat size)).

(** What the callers owe the entry points: [size] and [stride] are
    [size_t] values, the buffer holds 32-bit floats, fits the address
    space and covers offset [(size-1)*stride]. *)
Definition valid_view (values : list float32) (size stride : N) : Prop :=
  (size < SIZE_MOD)%N /\ (stride < SIZE_MOD)%N /\
  Forall word32 values /\
  (N.of_nat (length values) <= SIZE_MOD)%N /\
  ((0 < size)%N -> ((size - 1) * stride < N.of_nat (length values))%N).

(** [values[k]] as a total function, and the four consecutive elements
    from offset [i] as a register. *)
Definition elt (values : list float32) (k : N) : float32 :=
  nth (N.to_nat k) values 0.
Definition chunk (values : list float32) (i : N) : m128 :=
  mk128 (elt values i) (elt values (i + 1))
        (elt values (i + 2)) (elt values (i + 3)).

(** The "no data observed" result. *)
Definition sentinel : float32 * float32 := (infinity, neg_infinity).

(** [m] is an element of [l] that compares [<=] to every element. *)
Definition is_minimum (l : list float32) (m : float32) : Prop :=
  m ∈ l /\ forall x, x ∈ l -> fle m x = true.
Definition is_maximum (l : list float32) (m : float32) : Prop :=
  m ∈ l /\ forall x, x ∈ l -> fle x m = true.

(** Two bit patterns denote the same number: they compare equal, and
    they are the same bits unless both are zeros (of either sign). *)
Definition same_number (a b : float32) : Prop :=
  feq a b = true /\ (a = b \/ (magnitude a = 0 /\ magnitude b = 0)).
Definition same_value (r r' : float32 * float32) : Prop :=
  same_number r.1 r'.1 /\ same_number r.2 r'.2.

(** The two buffers hold the same thing (or both nothing) at every
    visited offset. *)
Definition agree_on (values values' : list float32) (size stride : N)
    : Prop :=
  forall i, (i < size)%N ->
    values !! N.to_nat (i * stride) = values' !! N.to_nat (i * stride).

(** [size] is a [size_t] and the largest visited offset is one too. *)
Definition offsets_fit (size stride : N) : Prop :=
  (size < SIZE_MOD)%N /\
  ((0 < size)%N -> ((size - 1) * stride < SIZE_MOD)%N).

(** Smallest and largest key of a list, seeded like the accumulators. *)
Definition min_key (l : list float32) : Z :=
  fold_right Z.min (key infinity) (map key l).
Definition max_key (l : list float32) : Z :=
  fold_right Z.max (key neg_infinity) (map key l).

(** A scalar accumulator that has absorbed exactly the values [l]. *)
Definition acc_min (l : list float32) (m : float32) : Prop :=
  is_nan m = false /\ key m = min_key l /\ m ∈ infinity :: l.
Definition acc_max (l : list float32) (m : float32) : Prop :=
  is_nan m = false /\ key m = max_key l /\ m ∈ neg_infinity :: l.

(** A four-lane accumulator that has absorbed exactly the values [l]:
    the lanes together carry the extremum. *)
Definition lane_list (r : m128) : list float32 :=
  [lane0 r; lane1 r; lane2 r; lane3 r].
Definition lanes_min (l : list float32) (r : m128) : Prop :=
  Forall (fun m => is_nan m = false /\ m ∈ infinity :: l) (lane_list r) /\
  Z.min (Z.min (key (lane0 r)) (key (lane1 r)))
        (Z.min (key (lane2 r)) (key (lane3 r))) = min_key l.
Definition lanes_max (l : list float32) (r : m128) : Prop :=
  Forall (fun m => is_nan m = false /\ m ∈ neg_infinity :: l)
         (lane_list r) /\
  Z.max (Z.max (key (lane0 r)) (key (lane1 r)))
        (Z.max (key (lane2 r)) (key (lane3 r))) = max_key l.

Definition not_nan (v : float32) : bool := negb (is_nan v).

(** One lane of [isValid_mask] and of [masked]. *)
Definition valid_lane (v : float32) : Z :=
  Z.land (Z.land (cmpord_lane v v) (cmpneq_lane v infinity))
         (cmpneq_lane v neg_infinity).
Definition masked_lane (v running : float32) : float32 :=
  Z.lor (Z.land (valid_lane v) v) (andnot_lane (valid_lane v) running).

(** Sample buffers for the concrete runs. *)
Definition buf_mixed : list float32 :=
  [quiet_nan; one; two; neg_infinity; infinity; five].
Definition buf_nan_in_bulk : list float32 :=
  [one; quiet_nan; two; three; five; five; five; five; nine].
Definition buf_zeros : list float32 := [0; neg_zero].
Definition buf_no_nan : list float32 :=
  [0; neg_zero; infinity; one; two; three; five; nine; neg_infinity; one].
Definition buf_strided : list float32 :=
  [one; nine; neg_infinity; nine; three; nine].
Definition buf_finite : list float32 :=
  [three; one; two; five; nine; one; two; three; five; 0].
Definition buf_scalar : list float32 :=
  [quiet_nan; one; infinity; two; quiet_nan].
Definition buf_gaps : list float32 := [one; nine; two; nine; three; nine].
Definition buf_gaps' : list float32 :=
  [one; quiet_nan; two; infinity; three].
Definition buf_nine : list float32 :=
  [three; one; two; five; nine; one; two; three; five].
Definition buf_mostly_nan : list float32 :=
  [quiet_nan; quiet_nan; one; infinity; quiet_nan; two;
   quiet_nan; neg_infinity; quiet_nan; quiet_nan].
Definition buf_only_nan : list float32 := [quiet_nan].
Definition buf_one_nan : list float32 := [one; quiet_nan].

(** Sign flip of a float (the unary minus of C): the top bit inverted. *)
Definition fneg (v : float32) : float32 := Z.lxor v 0x80000000.

(** More sample buffers. *)
Definition buf_three : list float32 := [three; quiet_nan; one].
Definition buf_four : list float32 := [five; two; nine; one].
Definition buf_reset : list float32 := [one; quiet_nan; five; two].
Definition buf_pair : list float32 := [nine; neg_infinity; one; two; five].
Definition buf_shuffled : list float32 := [five; two; one; neg_infinity; nine].
Definition reg_a : m128 := mk128 five one nine two.
Definition reg_b : m128 := mk128 quiet_nan infinity one neg_zero.

End Spec.

Import IEEE32 SSE2 MinMaxScan Spec.

(* ================================================================== *)
(** ** Comparison of bit patterns *)

Section Fields.
Variable x : float32.

Lemma biased_exp_div : biased_exp x = (x / 2 ^ 23) mod 2 ^ 8.
Proof.
  unfold biased_exp. change 0xFF with (Z.ones 8).
  rewrite Z.land_ones, Z.shiftr_div_pow2 by lia. reflexivity.
Qed.

Lemma fraction_mod : fraction x = x mod 2 ^ 23.
Proof.
  unfold fraction. change 0x7FFFFF with (Z.ones 23).
  now rewrite Z.land_ones by lia.
Qed.

Lemma magnitude_mod : magnitude x = x mod 2 ^ 31.
Proof.
  unfold magnitude. change 0x7FFFFFFF with (Z.ones 31).
  now rewrite Z.land_ones by lia.
Qed.

Lemma fields_range :
  0 <= biased_exp x < 256 /\ 0 <= fraction x < 2 ^ 23.
Proof.
  rewrite biased_exp_div, fraction_mod. split.
  - apply (Z.mod_pos_bound _ (2 ^ 8)). lia.
  - apply Z.mod_pos_bound. lia.
Qed.

Lemma magnitude_fields :
  magnitude x = biased_exp x * 2 ^ 23 + fraction x.
Proof.
  rewrite magnitude_mod, biased_exp_div, fraction_mod.
  change (2 ^ 31) with (2 ^ 23 * 2 ^ 8).
  rewrite Z.rem_mul_r by lia. lia.
Qed.
End Fields.

Lemma SFcompare_key (a b : float32) :
  SFcompare (decode a) (decode b) =
  if is_nan a || is_nan b then None else Some (key a ?= key b).
Proof.
  unfold is_nan, key. rewrite !magnitude_fields. unfold decode.
  destruct (fields_range a) as [Hea Hfa], (fields_range b) as [Heb Hfb].
  revert Hea Hfa Heb Hfb.
  generalize (biased_exp a) (fraction a) (sign_bit a)
             (biased_exp b) (fraction b) (sign_bit b).
  intros ea fa sa eb fb sb Hea Hfa Heb Hfb.
  destruct (Z.eqb_spec ea 0) as [-> | Ha0];
    [ | destruct (Z.eqb_spec ea 255) as [-> | Ha1] ];
    (destruct (Z.eqb_spec eb 0) as [-> | Hb0];
     [ | destruct (Z.eqb_spec eb 255) as [-> | Hb1] ]).
  all: try (destruct (fa + 2 ^ 23) as [ | pa | pa] eqn:Epa; [lia | | lia]).
  all: try (destruct (fb + 2 ^ 23) as [ | pb | pb] eqn:Epb; [lia | | lia]).
  all: destruct fa as [ | qa | qa], fb as [ | qb | qb]; try lia.
  all: destruct sa, sb; cbn [SFcompare orb].
  all: try reflexivity.
  all: try change (PosDef.Pos.compare_cont Eq ?p ?q) with (Pos.compare p q).
  all: repeat match goal with
         | |- context [Z.compare ?u ?v] =>
             lazymatch goal with
             | |- Some _ = Some (u ?= v) => fail
             | _ => destruct (Z.compare_spec u v)
             end
         | |- context [Pos.compare ?p ?q] => destruct (Pos.compare_spec p q)
         end.
  all: cbn [CompOpp]; f_equal; symmetry.
  all: first [ apply Z.compare_lt_iff; lia | apply Z.compare_gt_iff; lia
             | apply Z.compare_eq_iff; lia ].
Qed.

Ltac by_fields x :=
  rewrite ?magnitude_fields; unfold decode;
  let He := fresh "He" in let Hf := fresh "Hf" in
  destruct (fields_range x) as [He Hf]; revert He Hf;
  generalize (biased_exp x) (fraction x) (sign_bit x);
  let e := fresh "e" in let f := fresh "f" in let s := fresh "s" in
  intros e f s He Hf;
  destruct (Z.eqb_spec e 0) as [-> | ?];
    [ | destruct (Z.eqb_spec e 255) as [-> | ?] ];
  [ destruct f | destruct f | destruct (f + 2 ^ 23) eqn:? ]; lia.

Lemma is_nan_magnitude (x : float32) :
  is_nan x = (0x7F800000 <? magnitude x).
Proof. unfold is_nan. by_fields x. Qed.

Lemma is_finite_magnitude (x : float32) :
  is_finite x = (magnitude x <? 0x7F800000).
Proof. unfold is_finite. by_fields x. Qed.

Lemma is_inf_magnitude (x : float32) :
  is_inf x = (magnitude x =? 0x7F800000).
Proof. unfold is_inf. by_fields x. Qed.

Lemma magnitude_range (x : float32) : 0 <= magnitude x < 2 ^ 31.
Proof. rewrite magnitude_mod. apply Z.mod_pos_bound. lia. Qed.

Lemma cpu_isFinite_is_finite (x : float32) : cpu_isFinite x = is_finite x.
Proof. rewrite is_finite_magnitude. reflexivity. Qed.

Lemma flt_key (a b : float32) :
  flt a b = negb (is_nan a) && negb (is_nan b) && (key a <? key b).
Proof.
  unfold flt, SFltb. rewrite SFcompare_key.
  destruct (is_nan a), (is_nan b); reflexivity.
Qed.

Lemma fgt_key (a b : float32) :
  fgt a b = negb (is_nan a) && negb (is_nan b) && (key b <? key a).
Proof.
  change (fgt a b) with (flt b a). rewrite flt_key.
  now destruct (is_nan a), (is_nan b).
Qed.

Lemma feq_key (a b : float32) :
  feq a b = negb (is_nan a) && negb (is_nan b) && (key a =? key b).
Proof.
  unfold feq, SFeqb. rewrite SFcompare_key.
  destruct (is_nan a), (is_nan b); cbn; try reflexivity.
  all: destruct (Z.compare_spec (key a) (key b)); lia.
Qed.

Lemma fle_key (a b : float32) :
  fle a b = negb (is_nan a) && negb (is_nan b) && (key a <=? key b).
Proof.
  unfold fle, SFleb. rewrite SFcompare_key.
  destruct (is_nan a), (is_nan b); cbn; try reflexivity.
  all: destruct (Z.compare_spec (key a) (key b)); lia.
Qed.

Lemma key_range (x : float32) :
  is_nan x = false -> - 0x7F800000 <= key x <= 0x7F800000.
Proof.
  rewrite is_nan_magnitude. unfold key.
  pose proof (magnitude_range x). destruct (sign_bit x); lia.
Qed.

Lemma key_finite (x : float32) :
  is_finite x = true -> - 0x7F800000 < key x < 0x7F800000.
Proof.
  rewrite is_finite_magnitude. unfold key.
  pose proof (magnitude_range x). destruct (sign_bit x); lia.
Qed.

Lemma finite_not_nan (x : float32) : is_finite x = true -> is_nan x = false.
Proof. rewrite is_finite_magnitude, is_nan_magnitude. lia. Qed.

Lemma word32_split (x : float32) :
  word32 x -> x = magnitude x + (if sign_bit x then 2 ^ 31 else 0).
Proof.
  intros Hx. rewrite magnitude_mod. unfold sign_bit.
  rewrite Z.testbit_eqb by lia. unfold word32 in Hx.
  destruct (Z.eqb_spec ((x / 2 ^ 31) mod 2) 1) as [E | E].
  - rewrite (Z.mod_small (x / 2 ^ 31)) in E by (split; [apply Z.div_pos; lia | apply Z.div_lt_upper_bound; lia]).
    pose proof (Z.div_mod x (2 ^ 31)). lia.
  - rewrite (Z.mod_small (x / 2 ^ 31)) in E by (split; [apply Z.div_pos; lia | apply Z.div_lt_upper_bound; lia]).
    assert (x / 2 ^ 31 = 0) by (pose proof (Z.div_pos x (2^31)); assert (x / 2 ^ 31 < 2) by (apply Z.div_lt_upper_bound; lia); lia).
    pose proof (Z.div_mod x (2 ^ 31)). lia.
Qed.

(* ================================================================== *)
(** ** Reasoning about [for_range] *)

Section ForRange.
Context {A : Type}.
Variable bound step : N.

(** Invariant rule: with enough fuel the loop ends, in a state that
    satisfies the invariant at an index past the bound. *)
Lemma for_range_inv (body : N -> A -> option A) (Inv : N -> A -> Prop) :
  (0 < step)%N ->
  (forall i acc, Inv i acc -> (i < bound)%N ->
     (i + step < SIZE_MOD)%N /\
     exists acc', body i acc = Some acc' /\ Inv (i + step)%N acc') ->
  forall fuel i acc,
    Inv i acc -> (bound <= i + N.of_nat fuel * step)%N ->
    exists j acc', for_range body fuel i bound step acc = Some acc' /\
                   Inv j acc' /\ (bound <= j)%N.
Proof.
  intros Hstep Hbody. induction fuel as [ | fuel IH]; intros i acc Hi Hf.
  - exists i, acc. cbn. destruct (N.ltb_spec i bound); [lia | auto].
  - cbn. destruct (N.ltb_spec i bound) as [Hlt | Hge].
    + destruct (Hbody i acc Hi Hlt) as (Hw & acc' & -> & Hi').
      cbn. unfold wrap. rewrite N.mod_small by exact Hw.
      apply IH; [exact Hi' | lia].
    + exists i, acc. auto.
Qed.

(** Two bodies that agree on the states the first one reaches give the
    same loop. *)
Lemma for_range_ext (body1 body2 : N -> A -> option A)
    (P : N -> A -> Prop) :
  (forall i a, P i a -> (i < bound)%N ->
     body1 i a = body2 i a /\
     forall a', body1 i a = Some a' -> P (wrap (i + step)) a') ->
  forall fuel i acc, P i acc ->
    for_range body1 fuel i bound step acc =
    for_range body2 fuel i bound step acc.
Proof.
  intros Hb. induction fuel as [ | fuel IH]; intros i acc HP; cbn.
  - reflexivity.
  - destruct (N.ltb_spec i bound) as [Hlt | Hge]; [ | reflexivity].
    destruct (Hb i acc HP Hlt) as [<- Hnext].
    destruct (body1 i acc) as [a' | ]; cbn; [ | reflexivity].
    apply IH, Hnext. reflexivity.
Qed.

(** More fuel does not change a result. *)
Lemma for_range_fuel (body : N -> A -> option A) fuel i acc r :
  for_range body fuel i bound step acc = Some r ->
  for_range body (S fuel) i bound step acc = Some r.
Proof.
  revert i acc. induction fuel as [ | fuel IH]; intros i acc.
  - cbn. destruct (i <? bound)%N; [discriminate | auto].
  - intros H. cbn in H. cbn [for_range].
    destruct (i <? bound)%N; [ | exact H].
    destruct (body i acc) as [a' | ]; cbn in *; [ | discriminate].
    apply IH in H. exact H.
Qed.
End ForRange.

(* ================================================================== *)
(** ** The visited elements *)

Lemma visited_0 values stride : visited values 0 stride = [].
Proof. reflexivity. Qed.

Lemma visited_succ values i stride :
  visited values (i + 1) stride =
  visited values i stride ++ [nth (N.to_nat (i * stride)) values 0].
Proof.
  unfold visited. replace (N.to_nat (i + 1)) with (S (N.to_nat i)) by lia.
  rewrite seq_S, map_app. cbn. now rewrite N2Nat.inj_mul.
Qed.

Lemma visited_length values size stride :
  length (visited values size stride) = N.to_nat size.
Proof. unfold visited. now rewrite length_map, length_seq. Qed.

Lemma elem_of_visited values size stride x :
  x ∈ visited values size stride <->
  exists i, (i < size)%N /\ x = nth (N.to_nat (i * stride)) values 0.
Proof.
  unfold visited. rewrite list_elem_of_fmap. split.
  - intros (k & -> & Hk). apply list_elem_of_In, in_seq in Hk.
    exists (N.of_nat k). split; [lia | ].
    now rewrite N2Nat.inj_mul, Nat2N.id.
  - intros (i & Hi & ->). exists (N.to_nat i). split.
    + now rewrite N2Nat.inj_mul.
    + apply list_elem_of_In, in_seq. lia.
Qed.

Section View.
Variables (values : list float32) (size stride : N).
Hypothesis Hview : valid_view values size stride.

Lemma view_offset i :
  (i < size)%N ->
  (i * stride < N.of_nat (length values))%N /\ wrap (i * stride) = (i * stride)%N.
Proof.
  destruct Hview as (Hs & Hst & _ & Hlen & Hcov). intros Hi.
  assert (i * stride <= (size - 1) * stride)%N by (apply N.mul_le_mono_r; lia).
  specialize (Hcov ltac:(lia)). split; [lia | ].
  unfold wrap. apply N.mod_small. lia.
Qed.

Lemma view_load i :
  (i < size)%N ->
  load values (wrap (i * stride)) = Some (nth (N.to_nat (i * stride)) values 0).
Proof.
  intros Hi. destruct (view_offset i Hi) as [Hlt ->]. unfold load.
  destruct (nth_lookup_or_length values (N.to_nat (i * stride)) 0);
    [assumption | lia].
Qed.

Lemma view_word32 : Forall word32 (visited values size stride).
Proof.
  apply Forall_forall. intros x Hx.
  apply elem_of_visited in Hx as (i & Hi & ->).
  destruct Hview as (_ & _ & Hw & _).
  rewrite Forall_forall in Hw. apply Hw.
  apply list_elem_of_In, nth_In. destruct (view_offset i Hi). lia.
Qed.

Lemma view_prefix i : (i <= size)%N -> valid_view values i stride.
Proof.
  destruct Hview as (Hs & Hst & Hw & Hlen & Hcov). intros Hi.
  repeat split; try assumption; try lia.
  intros Hpos. specialize (Hcov ltac:(lia)).
  assert ((i - 1) * stride <= (size - 1) * stride)%N by (apply N.mul_le_mono_r; lia).
  lia.
Qed.

(** The strided loop is a left fold of its per-element update over the
    visited elements. *)
Lemma strided_fold {S : Type} (iter : float32 -> S -> S) (s0 : S) :
  exists index,
    for_range (strided_body iter values stride) (N.to_nat size)
      0%N size 1%N (0%N, s0) =
    Some (index, fold_left (fun s v => iter v s)
                   (visited values size stride) s0).
Proof.
  destruct (for_range_inv size 1 (strided_body iter values stride)
    (fun i st => (i <= size)%N /\ st.1 = wrap (i * stride) /\
       st.2 = fold_left (fun s v => iter v s) (visited values i stride) s0))
    with (fuel := N.to_nat size) (i := 0%N) (acc := (0%N, s0))
    as (j & [index s] & Hrun & (Hj & _ & Hs) & Hge).
  - lia.
  - intros i [index s] (Hi & Hidx & Hs) Hlt. cbn in Hidx, Hs. split.
    + destruct Hview as (Hsz & _). lia.
    + unfold strided_body. rewrite Hidx, (view_load i Hlt). cbn.
      eexists; split; [reflexivity | ]. cbn. split; [lia | split].
      * unfold wrap. rewrite N.Div0.add_mod_idemp_l. f_equal. lia.
      * rewrite visited_succ, fold_left_app. cbn. now rewrite Hs.
  - cbn. split; [lia | split; reflexivity].
  - lia.
  - cbn in Hs. replace j with size in * by lia.
    exists index. rewrite Hrun. now rewrite Hs.
Qed.
End View.

(* ================================================================== *)
(** ** Keys of the seeds, extremal keys of a list *)

Lemma key_infinity : key infinity = 0x7F800000.
Proof. reflexivity. Qed.

Lemma key_neg_infinity : key neg_infinity = - 0x7F800000.
Proof. reflexivity. Qed.

Lemma key_infinity_inv (x : float32) :
  word32 x -> key x = key infinity -> x = infinity.
Proof.
  intros Hx Hk. rewrite key_infinity in Hk. unfold key in Hk.
  pose proof (word32_split x Hx). pose proof (magnitude_range x).
  destruct (sign_bit x); unfold infinity; lia.
Qed.

Lemma key_neg_infinity_inv (x : float32) :
  word32 x -> key x = key neg_infinity -> x = neg_infinity.
Proof.
  intros Hx Hk. rewrite key_neg_infinity in Hk. unfold key in Hk.
  pose proof (word32_split x Hx). pose proof (magnitude_range x).
  destruct (sign_bit x); unfold neg_infinity; lia.
Qed.

Lemma min_key_le l : min_key l <= key infinity.
Proof.
  unfold min_key. generalize (key infinity) as k.
  induction l; intros k; cbn [fold_right map]; [lia | specialize (IHl k); lia].
Qed.

Lemma max_key_ge l : key neg_infinity <= max_key l.
Proof.
  unfold max_key. generalize (key neg_infinity) as k.
  induction l; intros k; cbn [fold_right map]; [lia | specialize (IHl k); lia].
Qed.

Lemma min_key_app l1 l2 :
  min_key (l1 ++ l2) = Z.min (min_key l1) (min_key l2).
Proof.
  pose proof (min_key_le l2). unfold min_key in *.
  induction l1; rewrite ?app_nil_l, <- ?app_comm_cons; cbn [fold_right map]; lia.
Qed.

Lemma max_key_app l1 l2 :
  max_key (l1 ++ l2) = Z.max (max_key l1) (max_key l2).
Proof.
  pose proof (max_key_ge l2). unfold max_key in *.
  induction l1; rewrite ?app_nil_l, <- ?app_comm_cons; cbn [fold_right map]; lia.
Qed.

Lemma min_key_elem l x : x ∈ l -> min_key l <= key x.
Proof.
  unfold min_key. induction l as [ | y l IH]; intros Hx.
  - now apply elem_of_nil in Hx.
  - apply elem_of_cons in Hx as [-> | Hx]; cbn [fold_right map]; [lia | ].
    specialize (IH Hx). lia.
Qed.

Lemma max_key_elem l x : x ∈ l -> key x <= max_key l.
Proof.
  unfold max_key. induction l as [ | y l IH]; intros Hx.
  - now apply elem_of_nil in Hx.
  - apply elem_of_cons in Hx as [-> | Hx]; cbn [fold_right map]; [lia | ].
    specialize (IH Hx). lia.
Qed.

Lemma min_key_single v : is_nan v = false -> min_key [v] = key v.
Proof.
  intros H. apply key_range in H. unfold min_key. cbn [fold_right map].
  rewrite key_infinity. lia.
Qed.

Lemma max_key_single v : is_nan v = false -> max_key [v] = key v.
Proof.
  intros H. apply key_range in H. unfold max_key. cbn [fold_right map].
  rewrite key_neg_infinity. lia.
Qed.

(** ** One lane of MINPS / MAXPS on ordered operands *)

Lemma min_lane_spec a b :
  is_nan a = false -> is_nan b = false ->
  is_nan (min_lane a b) = false /\
  key (min_lane a b) = Z.min (key a) (key b) /\
  (min_lane a b = a \/ min_lane a b = b).
Proof.
  intros Ha Hb. unfold min_lane. rewrite flt_key, Ha, Hb. cbn.
  destruct (Z.ltb_spec (key a) (key b)); repeat split; auto; lia.
Qed.

Lemma max_lane_spec a b :
  is_nan a = false -> is_nan b = false ->
  is_nan (max_lane a b) = false /\
  key (max_lane a b) = Z.max (key a) (key b) /\
  (max_lane a b = a \/ max_lane a b = b).
Proof.
  intros Ha Hb. unfold max_lane. rewrite fgt_key, Ha, Hb. cbn.
  destruct (Z.ltb_spec (key b) (key a)); repeat split; auto; lia.
Qed.

Lemma min_lane_same a : min_lane a a = a.
Proof. unfold min_lane. now destruct (flt a a). Qed.

Lemma max_lane_same a : max_lane a a = a.
Proof. unfold max_lane. now destruct (fgt a a). Qed.

(** ** Scalar accumulators *)

Lemma acc_min_nil : acc_min [] infinity.
Proof. repeat split. apply list_elem_of_here. Qed.

Lemma acc_max_nil : acc_max [] neg_infinity.
Proof. repeat split. apply list_elem_of_here. Qed.

Lemma acc_min_single v : is_nan v = false -> acc_min [v] v.
Proof.
  intros H. repeat split; [assumption | now rewrite min_key_single | ].
  apply list_elem_of_further, list_elem_of_here.
Qed.

Lemma acc_max_single v : is_nan v = false -> acc_max [v] v.
Proof.
  intros H. repeat split; [assumption | now rewrite max_key_single | ].
  apply list_elem_of_further, list_elem_of_here.
Qed.

Lemma elem_seed_app_l (s x : float32) l1 l2 :
  x ∈ s :: l1 -> x ∈ s :: l1 ++ l2.
Proof.
  rewrite !elem_of_cons, elem_of_app. tauto.
Qed.

Lemma elem_seed_app_r (s x : float32) l1 l2 :
  x ∈ s :: l2 -> x ∈ s :: l1 ++ l2.
Proof.
  rewrite !elem_of_cons, elem_of_app. tauto.
Qed.

Lemma acc_min_join l1 l2 m1 m2 :
  acc_min l1 m1 -> acc_min l2 m2 ->
  acc_min (l1 ++ l2) (min_lane m1 m2) /\ acc_min (l1 ++ l2) (min_lane m2 m1).
Proof.
  intros (N1 & K1 & E1) (N2 & K2 & E2).
  destruct (min_lane_spec m1 m2 N1 N2) as (Na & Ka & Ea).
  destruct (min_lane_spec m2 m1 N2 N1) as (Nb & Kb & Eb).
  unfold acc_min. rewrite min_key_app, Ka, Kb, K1, K2.
  repeat split; auto; try lia.
  - destruct Ea as [-> | ->]; auto using elem_seed_app_l, elem_seed_app_r.
  - destruct Eb as [-> | ->]; auto using elem_seed_app_l, elem_seed_app_r.
Qed.

Lemma acc_max_join l1 l2 m1 m2 :
  acc_max l1 m1 -> acc_max l2 m2 ->
  acc_max (l1 ++ l2) (max_lane m1 m2) /\ acc_max (l1 ++ l2) (max_lane m2 m1).
Proof.
  intros (N1 & K1 & E1) (N2 & K2 & E2).
  destruct (max_lane_spec m1 m2 N1 N2) as (Na & Ka & Ea).
  destruct (max_lane_spec m2 m1 N2 N1) as (Nb & Kb & Eb).
  unfold acc_max. rewrite max_key_app, Ka, Kb, K1, K2.
  repeat split; auto; try lia.
  - destruct Ea as [-> | ->]; auto using elem_seed_app_l, elem_seed_app_r.
  - destruct Eb as [-> | ->]; auto using elem_seed_app_l, elem_seed_app_r.
Qed.

(* ================================================================== *)
(** ** The validity mask *)

Lemma valid_lane_spec v :
  valid_lane v = if is_finite v then all_ones else 0.
Proof.
  unfold valid_lane, cmpord_lane, cmpneq_lane. rewrite !feq_key.
  rewrite key_infinity, key_neg_infinity, is_finite_magnitude.
  change (is_nan infinity) with false. change (is_nan neg_infinity) with false.
  destruct (is_nan v) eqn:Hn; rewrite is_nan_magnitude in Hn.
  - cbn. destruct (Z.ltb_spec (magnitude v) 0x7F800000); [lia | reflexivity].
  - cbn [orb negb andb]. unfold key. pose proof (magnitude_range v).
    destruct (sign_bit v);
      destruct (Z.eqb_spec (- magnitude v) 0x7F800000);
      destruct (Z.eqb_spec (- magnitude v) (- 0x7F800000));
      destruct (Z.eqb_spec (magnitude v) 0x7F800000);
      destruct (Z.eqb_spec (magnitude v) (- 0x7F800000));
      destruct (Z.ltb_spec (magnitude v) 0x7F800000);
      first [reflexivity | lia].
Qed.

Lemma land_all_ones x : word32 x -> Z.land all_ones x = x.
Proof.
  intros Hx. rewrite Z.land_comm. change all_ones with (Z.ones 32).
  rewrite Z.land_ones by lia. apply Z.mod_small. exact Hx.
Qed.

Lemma masked_lane_spec v r :
  word32 v -> word32 r ->
  masked_lane v r = if is_finite v then v else r.
Proof.
  intros Hv Hr. unfold masked_lane, andnot_lane. rewrite valid_lane_spec.
  destruct (is_finite v).
  - rewrite (land_all_ones v Hv), Z.lxor_nilpotent, Z.land_0_l.
    apply Z.lor_0_r.
  - rewrite Z.land_0_l, Z.lxor_0_l, (land_all_ones r Hr). apply Z.lor_0_l.
Qed.

Lemma masked_lanes t r :
  masked (isValid_mask t) t r =
  mk128 (masked_lane (lane0 t) (lane0 r)) (masked_lane (lane1 t) (lane1 r))
        (masked_lane (lane2 t) (lane2 r)) (masked_lane (lane3 t) (lane3 r)).
Proof. reflexivity. Qed.

Lemma sse2_reduceMinMax_lanes a b :
  sse2_reduceMinMax a b =
  (min_lane (min_lane (lane0 a) (lane3 a)) (min_lane (lane2 a) (lane1 a)),
   max_lane (max_lane (lane0 b) (lane3 b)) (max_lane (lane2 b) (lane1 b))).
Proof. reflexivity. Qed.

Lemma word32_infinity : word32 infinity.
Proof. unfold word32, infinity. lia. Qed.

Lemma word32_neg_infinity : word32 neg_infinity.
Proof. unfold word32, neg_infinity. lia. Qed.

Lemma word32_seeded (s x : float32) l :
  word32 s -> Forall word32 l -> x ∈ s :: l -> word32 x.
Proof.
  intros Hs Hl Hx. apply elem_of_cons in Hx as [-> | Hx]; [assumption | ].
  rewrite Forall_forall in Hl. auto.
Qed.

(* ================================================================== *)
(** ** The per-element updates keep the accumulators *)

Lemma fold_left_inv {S : Type} (Q : float32 -> Prop)
    (Inv : list float32 -> S -> Prop) (f : S -> float32 -> S)
    (V : list float32) (s0 : S) :
  Forall Q V -> Inv [] s0 ->
  (forall l s v, Forall Q l -> Q v -> Inv l s -> Inv (l ++ [v]) (f s v)) ->
  Inv V (fold_left f V s0).
Proof.
  intros HQ H0 Hstep. induction V as [ | v V IH] using rev_ind.
  - exact H0.
  - apply Forall_app in HQ as [HV Hv]. apply Forall_cons in Hv as [Hv _].
    rewrite fold_left_app. cbn.
    apply Hstep; [exact HV | exact Hv | apply IH, HV].
Qed.

Lemma Forall_list_filter {A : Type} (P : A -> Prop) (f : A -> bool) l :
  Forall P l -> Forall P (List.filter f l).
Proof.
  rewrite !Forall_forall. intros H x Hx. apply H.
  apply list_elem_of_In. apply list_elem_of_In, filter_In in Hx. tauto.
Qed.

Lemma filter_finite_single v :
  List.filter is_finite [v] = if is_finite v then [v] else [].
Proof. reflexivity. Qed.

Lemma cpu_iter_acc l m x v :
  is_nan v = false -> acc_min l m -> acc_max l x ->
  acc_min (l ++ [v]) (cpu_stridedMinMax_iter v (m, x)).1 /\
  acc_max (l ++ [v]) (cpu_stridedMinMax_iter v (m, x)).2.
Proof.
  intros Hv Hm Hx. cbn. split.
  - apply (acc_min_join l [v] m v Hm (acc_min_single v Hv)).
  - apply (acc_max_join l [v] x v Hx (acc_max_single v Hv)).
Qed.

Lemma cpu_iter_nan m x v :
  is_nan v = true -> cpu_stridedMinMax_iter v (m, x) = (m, x).
Proof.
  intros Hv. unfold cpu_stridedMinMax_iter.
  rewrite flt_key, fgt_key, Hv. reflexivity.
Qed.

Lemma cpu_safe_iter_acc l m x v :
  acc_min l m -> acc_max l x ->
  acc_min (l ++ List.filter is_finite [v])
          (cpu_stridedMinMaxSafe_iter v (m, x)).1 /\
  acc_max (l ++ List.filter is_finite [v])
          (cpu_stridedMinMaxSafe_iter v (m, x)).2.
Proof.
  intros Hm Hx. unfold cpu_stridedMinMaxSafe_iter.
  rewrite cpu_isFinite_is_finite, filter_finite_single.
  destruct (is_finite v) eqn:Hv.
  - apply cpu_iter_acc; auto using finite_not_nan.
  - rewrite app_nil_r. auto.
Qed.

Lemma sse2_iter_acc l a b v :
  is_nan v = false -> acc_min l (lane0 a) -> acc_max l (lane0 b) ->
  acc_min (l ++ [v]) (lane0 (sse2_stridedMinMax_iter v (a, b)).1) /\
  acc_max (l ++ [v]) (lane0 (sse2_stridedMinMax_iter v (a, b)).2).
Proof.
  intros Hv Hm Hx. cbn. split.
  - apply (acc_min_join l [v] _ v Hm (acc_min_single v Hv)).
  - apply (acc_max_join l [v] _ v Hx (acc_max_single v Hv)).
Qed.

Lemma sse2_safe_iter_lane0 a b v :
  lane0 (sse2_stridedMinMaxSafe_iter v (a, b)).1 =
    min_lane (lane0 a) (masked_lane v (lane0 a)) /\
  lane0 (sse2_stridedMinMaxSafe_iter v (a, b)).2 =
    max_lane (lane0 b) (masked_lane v (lane0 b)).
Proof. split; reflexivity. Qed.

Lemma sse2_safe_iter_acc l a b v :
  Forall word32 l -> word32 v ->
  acc_min l (lane0 a) -> acc_max l (lane0 b) ->
  acc_min (l ++ List.filter is_finite [v])
          (lane0 (sse2_stridedMinMaxSafe_iter v (a, b)).1) /\
  acc_max (l ++ List.filter is_finite [v])
          (lane0 (sse2_stridedMinMaxSafe_iter v (a, b)).2).
Proof.
  intros Hl Hv Hm Hx.
  destruct (sse2_safe_iter_lane0 a b v) as [-> ->].
  assert (Wa : word32 (lane0 a))
    by (eapply word32_seeded; [apply word32_infinity | exact Hl | apply Hm]).
  assert (Wb : word32 (lane0 b))
    by (eapply word32_seeded; [apply word32_neg_infinity | exact Hl | apply Hx]).
  rewrite !masked_lane_spec, filter_finite_single by assumption.
  destruct (is_finite v) eqn:Ev.
  - apply finite_not_nan in Ev. split.
    + apply (acc_min_join l [v] _ v Hm (acc_min_single v Ev)).
    + apply (acc_max_join l [v] _ v Hx (acc_max_single v Ev)).
  - rewrite app_nil_r, min_lane_same, max_lane_same. auto.
Qed.

Lemma filter_all {A : Type} (f : A -> bool) l :
  Forall (fun x => f x = true) l -> List.filter f l = l.
Proof.
  induction 1 as [ | x l Hx _ IH]; cbn; [reflexivity | ].
  now rewrite Hx, IH.
Qed.

Lemma cpu_iter_acc_filter l m x v :
  acc_min l m -> acc_max l x ->
  acc_min (l ++ List.filter not_nan [v]) (cpu_stridedMinMax_iter v (m, x)).1 /\
  acc_max (l ++ List.filter not_nan [v]) (cpu_stridedMinMax_iter v (m, x)).2.
Proof.
  intros Hm Hx. cbn [List.filter]. unfold not_nan.
  destruct (is_nan v) eqn:Hv; cbn [negb].
  - rewrite cpu_iter_nan, app_nil_r by assumption. auto.
  - now apply cpu_iter_acc.
Qed.

(* ================================================================== *)
(** ** The strided paths *)

Section Strided.
Variables (values : list float32) (size stride : N).
Hypothesis Hview : valid_view values size stride.

Local Abbreviation V := (visited values size stride) (only parsing).

Lemma cpu_stridedMinMax_acc :
  exists mn mx,
    cpu_stridedMinMax values size stride = Some (mn, mx) /\
    acc_min (List.filter not_nan V) mn /\ acc_max (List.filter not_nan V) mx.
Proof.
  unfold cpu_stridedMinMax.
  destruct (strided_fold values size stride Hview cpu_stridedMinMax_iter
              (infinity, neg_infinity)) as [index ->].
  cbn.
  destruct (fold_left _ V _) as [mn mx] eqn:E.
  exists mn, mx. split; [reflexivity | ].
  change (acc_min (List.filter not_nan V) (mn, mx).1 /\
          acc_max (List.filter not_nan V) (mn, mx).2).
  rewrite <- E.
  apply (fold_left_inv (fun _ => True)
           (fun l s => acc_min (List.filter not_nan l) s.1 /\
                       acc_max (List.filter not_nan l) s.2)).
  - apply Forall_true. auto.
  - split; [apply acc_min_nil | apply acc_max_nil].
  - intros l [m x] v _ _ [Hm Hx]. rewrite List.filter_app.
    now apply cpu_iter_acc_filter.
Qed.

Lemma cpu_stridedMinMaxSafe_acc :
  exists mn mx,
    cpu_stridedMinMaxSafe values size stride = Some (mn, mx) /\
    acc_min (List.filter is_finite V) mn /\
    acc_max (List.filter is_finite V) mx.
Proof.
  unfold cpu_stridedMinMaxSafe.
  destruct (strided_fold values size stride Hview
              cpu_stridedMinMaxSafe_iter (infinity, neg_infinity))
    as [index ->].
  cbn.
  destruct (fold_left _ V _) as [mn mx] eqn:E.
  exists mn, mx. split; [reflexivity | ].
  change (acc_min (List.filter is_finite V) (mn, mx).1 /\
          acc_max (List.filter is_finite V) (mn, mx).2).
  rewrite <- E.
  apply (fold_left_inv (fun _ => True)
           (fun l s => acc_min (List.filter is_finite l) s.1 /\
                       acc_max (List.filter is_finite l) s.2)).
  - apply Forall_true. auto.
  - split; [apply acc_min_nil | apply acc_max_nil].
  - intros l [m x] v _ _ [Hm Hx]. rewrite List.filter_app.
    now apply cpu_safe_iter_acc.
Qed.

Lemma sse2_stridedMinMax_acc :
  Forall (fun v => is_nan v = false) V ->
  exists mn mx,
    sse2_stridedMinMax values size stride = Some (mn, mx) /\
    acc_min V mn /\ acc_max V mx.
Proof.
  intros Hnan. unfold sse2_stridedMinMax.
  destruct (strided_fold values size stride Hview sse2_stridedMinMax_iter
              (_mm_set_ss infinity, _mm_set_ss neg_infinity)) as [index ->].
  cbn.
  destruct (fold_left _ V _) as [a b] eqn:E.
  eexists _, _. split; [reflexivity | ].
  change (acc_min V (lane0 (a, b).1) /\ acc_max V (lane0 (a, b).2)).
  rewrite <- E.
  apply (fold_left_inv (fun v => is_nan v = false)
           (fun l s => acc_min l (lane0 s.1) /\ acc_max l (lane0 s.2)));
    [exact Hnan | | ].
  - split; [apply acc_min_nil | apply acc_max_nil].
  - intros l [m x] v _ Hv [Hm Hx]. now apply sse2_iter_acc.
Qed.

Lemma sse2_stridedMinMaxSafe_acc :
  exists mn mx,
    sse2_stridedMinMaxSafe values size stride = Some (mn, mx) /\
    acc_min (List.filter is_finite V) mn /\
    acc_max (List.filter is_finite V) mx.
Proof.
  unfold sse2_stridedMinMaxSafe.
  destruct (strided_fold values size stride Hview
              sse2_stridedMinMaxSafe_iter
              (_mm_set_ss infinity, _mm_set_ss neg_infinity)) as [index ->].
  cbn.
  destruct (fold_left _ V _) as [a b] eqn:E.
  eexists _, _. split; [reflexivity | ].
  change (acc_min (List.filter is_finite V) (lane0 (a, b).1) /\
          acc_max (List.filter is_finite V) (lane0 (a, b).2)).
  rewrite <- E.
  apply (fold_left_inv word32
           (fun l s => acc_min (List.filter is_finite l) (lane0 s.1) /\
                       acc_max (List.filter is_finite l) (lane0 s.2)));
    [exact (view_word32 values size stride Hview) | | ].
  - split; [apply acc_min_nil | apply acc_max_nil].
  - intros l [m x] v Hl Hv [Hm Hx]. rewrite List.filter_app.
    apply sse2_safe_iter_acc; auto using Forall_list_filter.
Qed.
End Strided.

(* ================================================================== *)
(** ** Four-lane accumulators *)

(** Equations between nested minima (maxima) of keys, by antisymmetry. *)
Ltac min_solve :=
  pose proof key_infinity;
  apply Z.le_antisymm; repeat apply Z.min_glb; rewrite ?Z.min_le_iff; lia.
Ltac max_solve :=
  pose proof key_neg_infinity;
  apply Z.le_antisymm; repeat apply Z.max_lub; rewrite ?Z.max_le_iff; lia.

Lemma finite_key_bound t :
  (if is_finite t then key t else key infinity) <= 0x7F800000 /\
  - 0x7F800000 <= (if is_finite t then key t else key neg_infinity).
Proof.
  destruct (is_finite t) eqn:E.
  - apply key_finite in E. lia.
  - rewrite key_infinity, key_neg_infinity. lia.
Qed.

(** *** The minimum side *)

Lemma min_key_filter_cons t ts :
  min_key (List.filter is_finite (t :: ts)) =
  Z.min (if is_finite t then key t else key infinity)
        (min_key (List.filter is_finite ts)).
Proof.
  pose proof (min_key_le (List.filter is_finite ts)).
  cbn [List.filter]. destruct (is_finite t); [reflexivity | lia].
Qed.

Lemma min_key_cons t ts : min_key (t :: ts) = Z.min (key t) (min_key ts).
Proof. reflexivity. Qed.

Lemma min_key_nil : min_key [] = key infinity.
Proof. reflexivity. Qed.

Lemma lane_min_keep l ts m :
  (is_nan m = false /\ m ∈ infinity :: l) ->
  is_nan m = false /\ m ∈ infinity :: l ++ ts.
Proof. intros [Hn He]. split; [assumption | now apply elem_seed_app_l]. Qed.

Lemma lane_min_unsafe l ts t m :
  (is_nan m = false /\ m ∈ infinity :: l) -> is_nan t = false -> t ∈ ts ->
  ((is_nan (min_lane t m) = false /\ min_lane t m ∈ infinity :: l ++ ts) /\
   key (min_lane t m) = Z.min (key t) (key m)) /\
  ((is_nan (min_lane m t) = false /\ min_lane m t ∈ infinity :: l ++ ts) /\
   key (min_lane m t) = Z.min (key t) (key m)).
Proof.
  intros [Hn He] Ht Hin.
  destruct (min_lane_spec t m Ht Hn) as (Na & Ka & Ea).
  destruct (min_lane_spec m t Hn Ht) as (Nb & Kb & Eb).
  assert (Hts : t ∈ infinity :: l ++ ts)
    by (rewrite elem_of_cons, elem_of_app; tauto).
  assert (Hm : m ∈ infinity :: l ++ ts) by now apply elem_seed_app_l.
  repeat split; auto; try lia.
  - now destruct Ea as [-> | ->].
  - now destruct Eb as [-> | ->].
Qed.

Lemma lane_min_safe l ts t m :
  Forall word32 l -> word32 t ->
  (is_nan m = false /\ m ∈ infinity :: l) -> t ∈ ts ->
  ((is_nan (min_lane (masked_lane t m) m) = false /\
    min_lane (masked_lane t m) m ∈ infinity :: l ++ List.filter is_finite ts) /\
   key (min_lane (masked_lane t m) m) =
     Z.min (key m) (if is_finite t then key t else key infinity)) /\
  ((is_nan (min_lane m (masked_lane t m)) = false /\
    min_lane m (masked_lane t m) ∈ infinity :: l ++ List.filter is_finite ts) /\
   key (min_lane m (masked_lane t m)) =
     Z.min (key m) (if is_finite t then key t else key infinity)).
Proof.
  intros Hl Ht [Hn He] Hin.
  assert (Wm : word32 m)
    by (eapply word32_seeded; [apply word32_infinity | exact Hl | exact He]).
  rewrite masked_lane_spec by assumption.
  destruct (is_finite t) eqn:Ef.
  - assert (Hin' : t ∈ List.filter is_finite ts).
    { apply list_elem_of_In, filter_In. split; [now apply list_elem_of_In | exact Ef]. }
    destruct (lane_min_unsafe l (List.filter is_finite ts) t m)
      as [[H1 K1] [H2 K2]]; auto using finite_not_nan.
    repeat split; try apply H1; try apply H2; lia.
  - rewrite min_lane_same. pose proof (key_range m Hn).
    rewrite key_infinity.
    repeat split; auto using elem_seed_app_l; lia.
Qed.

Lemma lanes_min_intro l a b c d :
  (is_nan a = false /\ a ∈ infinity :: l) ->
  (is_nan b = false /\ b ∈ infinity :: l) ->
  (is_nan c = false /\ c ∈ infinity :: l) ->
  (is_nan d = false /\ d ∈ infinity :: l) ->
  Z.min (Z.min (key a) (key b)) (Z.min (key c) (key d)) = min_key l ->
  lanes_min l (mk128 a b c d).
Proof.
  intros Ha Hb Hc Hd Hk. split; [ | exact Hk].
  unfold lane_list. cbn.
  repeat (apply List.Forall_cons; [assumption | ]). apply List.Forall_nil.
Qed.

Lemma lanes_min_elim l r :
  lanes_min l r ->
  (is_nan (lane0 r) = false /\ lane0 r ∈ infinity :: l) /\
  (is_nan (lane1 r) = false /\ lane1 r ∈ infinity :: l) /\
  (is_nan (lane2 r) = false /\ lane2 r ∈ infinity :: l) /\
  (is_nan (lane3 r) = false /\ lane3 r ∈ infinity :: l) /\
  Z.min (Z.min (key (lane0 r)) (key (lane1 r)))
        (Z.min (key (lane2 r)) (key (lane3 r))) = min_key l.
Proof.
  intros [Hf Hk]. unfold lane_list in Hf.
  apply Forall_cons in Hf as [H0 Hf]. apply Forall_cons in Hf as [H1 Hf].
  apply Forall_cons in Hf as [H2 Hf]. apply Forall_cons in Hf as [H3 _].
  auto.
Qed.

Lemma lanes_min_init : lanes_min [] (_mm_set1_ps infinity).
Proof.
  apply lanes_min_intro; try (split; [reflexivity | apply list_elem_of_here]).
  reflexivity.
Qed.

Lemma lanes_min_first4 t :
  Forall (fun v => is_nan v = false) (lane_list t) ->
  lanes_min (lane_list t) t.
Proof.
  destruct t as [a b c d]. unfold lane_list. cbn. intros Hf.
  apply Forall_cons in Hf as [Ha Hf]. apply Forall_cons in Hf as [Hb Hf].
  apply Forall_cons in Hf as [Hc Hf]. apply Forall_cons in Hf as [Hd _].
  apply lanes_min_intro;
    try (split; [assumption | rewrite !elem_of_cons; tauto]).
  rewrite !min_key_cons, min_key_nil, key_infinity.
  apply key_range in Ha, Hb, Hc, Hd. min_solve.
Qed.

Lemma lanes_min_vector l r t :
  lanes_min l r -> Forall (fun v => is_nan v = false) (lane_list t) ->
  lanes_min (l ++ lane_list t) (_mm_min_ps t r).
Proof.
  destruct t as [a b c d], r as [r0 r1 r2 r3].
  unfold lane_list, _mm_min_ps, map2. cbn [lane0 lane1 lane2 lane3].
  intros Hr Hf. apply lanes_min_elim in Hr as (P0 & P1 & P2 & P3 & Hk).
  cbn [lane0 lane1 lane2 lane3] in P0, P1, P2, P3, Hk.
  apply Forall_cons in Hf as [Ha Hf]. apply Forall_cons in Hf as [Hb Hf].
  apply Forall_cons in Hf as [Hc Hf]. apply Forall_cons in Hf as [Hd _].
  destruct (lane_min_unsafe l [a; b; c; d] a r0 P0 Ha) as [[Q0 K0] _];
    [rewrite !elem_of_cons; tauto | ].
  destruct (lane_min_unsafe l [a; b; c; d] b r1 P1 Hb) as [[Q1 K1] _];
    [rewrite !elem_of_cons; tauto | ].
  destruct (lane_min_unsafe l [a; b; c; d] c r2 P2 Hc) as [[Q2 K2] _];
    [rewrite !elem_of_cons; tauto | ].
  destruct (lane_min_unsafe l [a; b; c; d] d r3 P3 Hd) as [[Q3 K3] _];
    [rewrite !elem_of_cons; tauto | ].
  apply lanes_min_intro; try assumption.
  rewrite min_key_app, !min_key_cons, min_key_nil, key_infinity, <- Hk, K0, K1, K2, K3.
  apply key_range in Ha, Hb, Hc, Hd. min_solve.
Qed.

Lemma lanes_min_vector_safe l r t :
  Forall word32 l -> Forall word32 (lane_list t) -> lanes_min l r ->
  lanes_min (l ++ List.filter is_finite (lane_list t))
            (_mm_min_ps (masked (isValid_mask t) t r) r).
Proof.
  rewrite masked_lanes.
  destruct t as [a b c d], r as [r0 r1 r2 r3]. unfold lane_list, _mm_min_ps, map2.
  cbn [lane0 lane1 lane2 lane3].
  intros Hl Hw Hr. apply lanes_min_elim in Hr as (P0 & P1 & P2 & P3 & Hk).
  cbn [lane0 lane1 lane2 lane3] in P0, P1, P2, P3, Hk.
  apply Forall_cons in Hw as [Wa Hw]. apply Forall_cons in Hw as [Wb Hw].
  apply Forall_cons in Hw as [Wc Hw]. apply Forall_cons in Hw as [Wd _].
  destruct (lane_min_safe l [a; b; c; d] a r0 Hl Wa P0) as [[Q0 K0] _];
    [rewrite !elem_of_cons; tauto | ].
  destruct (lane_min_safe l [a; b; c; d] b r1 Hl Wb P1) as [[Q1 K1] _];
    [rewrite !elem_of_cons; tauto | ].
  destruct (lane_min_safe l [a; b; c; d] c r2 Hl Wc P2) as [[Q2 K2] _];
    [rewrite !elem_of_cons; tauto | ].
  destruct (lane_min_safe l [a; b; c; d] d r3 Hl Wd P3) as [[Q3 K3] _];
    [rewrite !elem_of_cons; tauto | ].
  apply lanes_min_intro; try assumption.
  rewrite min_key_app, !min_key_filter_cons. change (List.filter is_finite []) with (@nil Z).
  rewrite min_key_nil, <- Hk, K0, K1, K2, K3.
  pose proof (finite_key_bound a). pose proof (finite_key_bound b).
  pose proof (finite_key_bound c). pose proof (finite_key_bound d).
  min_solve.
Qed.

Lemma lanes_min_single l r v :
  lanes_min l r -> is_nan v = false ->
  lanes_min (l ++ [v]) (_mm_min_ss r (_mm_set_ss v)).
Proof.
  destruct r as [r0 r1 r2 r3].
  unfold _mm_min_ss, low2, _mm_set_ss. cbn [lane0 lane1 lane2 lane3].
  intros Hr Hv. apply lanes_min_elim in Hr as (P0 & P1 & P2 & P3 & Hk).
  cbn [lane0 lane1 lane2 lane3] in P0, P1, P2, P3, Hk.
  destruct (lane_min_unsafe l [v] v r0 P0 Hv) as [_ [Q0 K0]];
    [apply list_elem_of_here | ].
  apply lanes_min_intro; auto using lane_min_keep.
  rewrite min_key_app, min_key_cons, min_key_nil, key_infinity, <- Hk, K0.
  apply key_range in Hv. min_solve.
Qed.

Lemma lanes_min_single_safe l r v :
  Forall word32 l -> word32 v -> lanes_min l r ->
  lanes_min (l ++ List.filter is_finite [v])
    (_mm_min_ss r (masked (isValid_mask (_mm_set_ss v)) (_mm_set_ss v) r)).
Proof.
  rewrite masked_lanes.
  destruct r as [r0 r1 r2 r3]. unfold _mm_min_ss, low2, _mm_set_ss.
  cbn [lane0 lane1 lane2 lane3].
  intros Hl Wv Hr. apply lanes_min_elim in Hr as (P0 & P1 & P2 & P3 & Hk).
  cbn [lane0 lane1 lane2 lane3] in P0, P1, P2, P3, Hk.
  destruct (lane_min_safe l [v] v r0 Hl Wv P0) as [_ [Q0 K0]];
    [apply list_elem_of_here | ].
  apply lanes_min_intro; auto using lane_min_keep.
  rewrite min_key_app, min_key_filter_cons. change (List.filter is_finite []) with (@nil Z).
  rewrite min_key_nil, <- Hk, K0.
  pose proof (finite_key_bound v). min_solve.
Qed.

Lemma lanes_min_reduce l r :
  lanes_min l r ->
  acc_min l (min_lane (min_lane (lane0 r) (lane3 r))
                      (min_lane (lane2 r) (lane1 r))).
Proof.
  intros Hr. apply lanes_min_elim in Hr
    as ([N0 E0] & [N1 E1] & [N2 E2] & [N3 E3] & Hk).
  destruct (min_lane_spec _ _ N0 N3) as (Na & Ka & Ea).
  destruct (min_lane_spec _ _ N2 N1) as (Nb & Kb & Eb).
  destruct (min_lane_spec _ _ Na Nb) as (Nc & Kc & Ec).
  repeat split; [exact Nc | lia | ].
  destruct Ec as [-> | ->]; [destruct Ea as [-> | ->] | destruct Eb as [-> | ->]];
    assumption.
Qed.

(** *** The maximum side *)

Lemma max_key_filter_cons t ts :
  max_key (List.filter is_finite (t :: ts)) =
  Z.max (if is_finite t then key t else key neg_infinity)
        (max_key (List.filter is_finite ts)).
Proof.
  pose proof (max_key_ge (List.filter is_finite ts)).
  cbn [List.filter]. destruct (is_finite t); [reflexivity | lia].
Qed.

Lemma max_key_cons t ts : max_key (t :: ts) = Z.max (key t) (max_key ts).
Proof. reflexivity. Qed.

Lemma max_key_nil : max_key [] = key neg_infinity.
Proof. reflexivity. Qed.

Lemma lane_max_keep l ts m :
  (is_nan m = false /\ m ∈ neg_infinity :: l) ->
  is_nan m = false /\ m ∈ neg_infinity :: l ++ ts.
Proof. intros [Hn He]. split; [assumption | now apply elem_seed_app_l]. Qed.

Lemma lane_max_unsafe l ts t m :
  (is_nan m = false /\ m ∈ neg_infinity :: l) -> is_nan t = false -> t ∈ ts ->
  ((is_nan (max_lane t m) = false /\ max_lane t m ∈ neg_infinity :: l ++ ts) /\
   key (max_lane t m) = Z.max (key t) (key m)) /\
  ((is_nan (max_lane m t) = false /\ max_lane m t ∈ neg_infinity :: l ++ ts) /\
   key (max_lane m t) = Z.max (key t) (key m)).
Proof.
  intros [Hn He] Ht Hin.
  destruct (max_lane_spec t m Ht Hn) as (Na & Ka & Ea).
  destruct (max_lane_spec m t Hn Ht) as (Nb & Kb & Eb).
  assert (Hts : t ∈ neg_infinity :: l ++ ts)
    by (rewrite elem_of_cons, elem_of_app; tauto).
  assert (Hm : m ∈ neg_infinity :: l ++ ts) by now apply elem_seed_app_l.
  repeat split; auto; try lia.
  - now destruct Ea as [-> | ->].
  - now destruct Eb as [-> | ->].
Qed.

Lemma lane_max_safe l ts t m :
  Forall word32 l -> word32 t ->
  (is_nan m = false /\ m ∈ neg_infinity :: l) -> t ∈ ts ->
  ((is_nan (max_lane (masked_lane t m) m) = false /\
    max_lane (masked_lane t m) m ∈ neg_infinity :: l ++ List.filter is_finite ts) /\
   key (max_lane (masked_lane t m) m) =
     Z.max (key m) (if is_finite t then key t else key neg_infinity)) /\
  ((is_nan (max_lane m (masked_lane t m)) = false /\
    max_lane m (masked_lane t m) ∈ neg_infinity :: l ++ List.filter is_finite ts) /\
   key (max_lane m (masked_lane t m)) =
     Z.max (key m) (if is_finite t then key t else key neg_infinity)).
Proof.
  intros Hl Ht [Hn He] Hin.
  assert (Wm : word32 m)
    by (eapply word32_seeded; [apply word32_neg_infinity | exact Hl | exact He]).
  rewrite masked_lane_spec by assumption.
  destruct (is_finite t) eqn:Ef.
  - assert (Hin' : t ∈ List.filter is_finite ts).
    { apply list_elem_of_In, filter_In. split; [now apply list_elem_of_In | exact Ef]. }
    destruct (lane_max_unsafe l (List.filter is_finite ts) t m)
      as [[H1 K1] [H2 K2]]; auto using finite_not_nan.
    repeat split; try apply H1; try apply H2; lia.
  - rewrite max_lane_same. pose proof (key_range m Hn).
    rewrite key_neg_infinity.
    repeat split; auto using elem_seed_app_l; lia.
Qed.

Lemma lanes_max_intro l a b c d :
  (is_nan a = false /\ a ∈ neg_infinity :: l) ->
  (is_nan b = false /\ b ∈ neg_infinity :: l) ->
  (is_nan c = false /\ c ∈ neg_infinity :: l) ->
  (is_nan d = false /\ d ∈ neg_infinity :: l) ->
  Z.max (Z.max (key a) (key b)) (Z.max (key c) (key d)) = max_key l ->
  lanes_max l (mk128 a b c d).
Proof.
  intros Ha Hb Hc Hd Hk. split; [ | exact Hk].
  unfold lane_list. cbn.
  repeat (apply List.Forall_cons; [assumption | ]). apply List.Forall_nil.
Qed.

Lemma lanes_max_elim l r :
  lanes_max l r ->
  (is_nan (lane0 r) = false /\ lane0 r ∈ neg_infinity :: l) /\
  (is_nan (lane1 r) = false /\ lane1 r ∈ neg_infinity :: l) /\
  (is_nan (lane2 r) = false /\ lane2 r ∈ neg_infinity :: l) /\
  (is_nan (lane3 r) = false /\ lane3 r ∈ neg_infinity :: l) /\
  Z.max (Z.max (key (lane0 r)) (key (lane1 r)))
        (Z.max (key (lane2 r)) (key (lane3 r))) = max_key l.
Proof.
  intros [Hf Hk]. unfold lane_list in Hf.
  apply Forall_cons in Hf as [H0 Hf]. apply Forall_cons in Hf as [H1 Hf].
  apply Forall_cons in Hf as [H2 Hf]. apply Forall_cons in Hf as [H3 _].
  auto.
Qed.

Lemma lanes_max_init : lanes_max [] (_mm_set1_ps neg_infinity).
Proof.
  apply lanes_max_intro; try (split; [reflexivity | apply list_elem_of_here]).
  reflexivity.
Qed.

Lemma lanes_max_first4 t :
  Forall (fun v => is_nan v = false) (lane_list t) ->
  lanes_max (lane_list t) t.
Proof.
  destruct t as [a b c d]. unfold lane_list. cbn. intros Hf.
  apply Forall_cons in Hf as [Ha Hf]. apply Forall_cons in Hf as [Hb Hf].
  apply Forall_cons in Hf as [Hc Hf]. apply Forall_cons in Hf as [Hd _].
  apply lanes_max_intro;
    try (split; [assumption | rewrite !elem_of_cons; tauto]).
  rewrite !max_key_cons, max_key_nil, key_neg_infinity.
  apply key_range in Ha, Hb, Hc, Hd. max_solve.
Qed.

Lemma lanes_max_vector l r t :
  lanes_max l r -> Forall (fun v => is_nan v = false) (lane_list t) ->
  lanes_max (l ++ lane_list t) (_mm_max_ps t r).
Proof.
  destruct t as [a b c d], r as [r0 r1 r2 r3].
  unfold lane_list, _mm_max_ps, map2. cbn [lane0 lane1 lane2 lane3].
  intros Hr Hf. apply lanes_max_elim in Hr as (P0 & P1 & P2 & P3 & Hk).
  cbn [lane0 lane1 lane2 lane3] in P0, P1, P2, P3, Hk.
  apply Forall_cons in Hf as [Ha Hf]. apply Forall_cons in Hf as [Hb Hf].
  apply Forall_cons in Hf as [Hc Hf]. apply Forall_cons in Hf as [Hd _].
  destruct (lane_max_unsafe l [a; b; c; d] a r0 P0 Ha) as [[Q0 K0] _];
    [rewrite !elem_of_cons; tauto | ].
  destruct (lane_max_unsafe l [a; b; c; d] b r1 P1 Hb) as [[Q1 K1] _];
    [rewrite !elem_of_cons; tauto | ].
  destruct (lane_max_unsafe l [a; b; c; d] c r2 P2 Hc) as [[Q2 K2] _];
    [rewrite !elem_of_cons; tauto | ].
  destruct (lane_max_unsafe l [a; b; c; d] d r3 P3 Hd) as [[Q3 K3] _];
    [rewrite !elem_of_cons; tauto | ].
  apply lanes_max_intro; try assumption.
  rewrite max_key_app, !max_key_cons, max_key_nil, key_neg_infinity, <- Hk, K0, K1, K2, K3.
  apply key_range in Ha, Hb, Hc, Hd. max_solve.
Qed.

Lemma lanes_max_vector_safe l r t :
  Forall word32 l -> Forall word32 (lane_list t) -> lanes_max l r ->
  lanes_max (l ++ List.filter is_finite (lane_list t))
            (_mm_max_ps (masked (isValid_mask t) t r) r).
Proof.
  rewrite masked_lanes.
  destruct t as [a b c d], r as [r0 r1 r2 r3]. unfold lane_list, _mm_max_ps, map2.
  cbn [lane0 lane1 lane2 lane3].
  intros Hl Hw Hr. apply lanes_max_elim in Hr as (P0 & P1 & P2 & P3 & Hk).
  cbn [lane0 lane1 lane2 lane3] in P0, P1, P2, P3, Hk.
  apply Forall_cons in Hw as [Wa Hw]. apply Forall_cons in Hw as [Wb Hw].
  apply Forall_cons in Hw as [Wc Hw]. apply Forall_cons in Hw as [Wd _].
  destruct (lane_max_safe l [a; b; c; d] a r0 Hl Wa P0) as [[Q0 K0] _];
    [rewrite !elem_of_cons; tauto | ].
  destruct (lane_max_safe l [a; b; c; d] b r1 Hl Wb P1) as [[Q1 K1] _];
    [rewrite !elem_of_cons; tauto | ].
  destruct (lane_max_safe l [a; b; c; d] c r2 Hl Wc P2) as [[Q2 K2] _];
    [rewrite !elem_of_cons; tauto | ].
  destruct (lane_max_safe l [a; b; c; d] d r3 Hl Wd P3) as [[Q3 K3] _];
    [rewrite !elem_of_cons; tauto | ].
  apply lanes_max_intro; try assumption.
  rewrite max_key_app, !max_key_filter_cons. change (List.filter is_finite []) with (@nil Z).
  rewrite max_key_nil, <- Hk, K0, K1, K2, K3.
  pose proof (finite_key_bound a). pose proof (finite_key_bound b).
  pose proof (finite_key_bound c). pose proof (finite_key_bound d).
  max_solve.
Qed.

Lemma lanes_max_single l r v :
  lanes_max l r -> is_nan v = false ->
  lanes_max (l ++ [v]) (_mm_max_ss r (_mm_set_ss v)).
Proof.
  destruct r as [r0 r1 r2 r3].
  unfold _mm_max_ss, low2, _mm_set_ss. cbn [lane0 lane1 lane2 lane3].
  intros Hr Hv. apply lanes_max_elim in Hr as (P0 & P1 & P2 & P3 & Hk).
  cbn [lane0 lane1 lane2 lane3] in P0, P1, P2, P3, Hk.
  destruct (lane_max_unsafe l [v] v r0 P0 Hv) as [_ [Q0 K0]];
    [apply list_elem_of_here | ].
  apply lanes_max_intro; auto using lane_max_keep.
  rewrite max_key_app, max_key_cons, max_key_nil, key_neg_infinity, <- Hk, K0.
  apply key_range in Hv. max_solve.
Qed.

Lemma lanes_max_single_safe l r v :
  Forall word32 l -> word32 v -> lanes_max l r ->
  lanes_max (l ++ List.filter is_finite [v])
    (_mm_max_ss r (masked (isValid_mask (_mm_set_ss v)) (_mm_set_ss v) r)).
Proof.
  rewrite masked_lanes.
  destruct r as [r0 r1 r2 r3]. unfold _mm_max_ss, low2, _mm_set_ss.
  cbn [lane0 lane1 lane2 lane3].
  intros Hl Wv Hr. apply lanes_max_elim in Hr as (P0 & P1 & P2 & P3 & Hk).
  cbn [lane0 lane1 lane2 lane3] in P0, P1, P2, P3, Hk.
  destruct (lane_max_safe l [v] v r0 Hl Wv P0) as [_ [Q0 K0]];
    [apply list_elem_of_here | ].
  apply lanes_max_intro; auto using lane_max_keep.
  rewrite max_key_app, max_key_filter_cons. change (List.filter is_finite []) with (@nil Z).
  rewrite max_key_nil, <- Hk, K0.
  pose proof (finite_key_bound v). max_solve.
Qed.

Lemma lanes_max_reduce l r :
  lanes_max l r ->
  acc_max l (max_lane (max_lane (lane0 r) (lane3 r))
                      (max_lane (lane2 r) (lane1 r))).
Proof.
  intros Hr. apply lanes_max_elim in Hr
    as ([N0 E0] & [N1 E1] & [N2 E2] & [N3 E3] & Hk).
  destruct (max_lane_spec _ _ N0 N3) as (Na & Ka & Ea).
  destruct (max_lane_spec _ _ N2 N1) as (Nb & Kb & Eb).
  destruct (max_lane_spec _ _ Na Nb) as (Nc & Kc & Ec).
  repeat split; [exact Nc | lia | ].
  destruct Ec as [-> | ->]; [destruct Ea as [-> | ->] | destruct Eb as [-> | ->]];
    assumption.
Qed.

(* ================================================================== *)
(** ** The bulk paths *)

Lemma unroll_size size :
  (size < SIZE_MOD)%N ->
  wrap (size / 4 * 4) = (size / 4 * 4)%N /\
  (size / 4 * 4 <= size)%N /\ (size < size / 4 * 4 + 4)%N /\
  ((size / 4 * 4) mod 4 = 0)%N.
Proof.
  intros Hs. pose proof (N.Div0.div_mod size 4) as Hdm.
  pose proof (N.mod_upper_bound size 4 ltac:(lia)) as Hub.
  pose proof (N.Div0.mul_div_le size 4) as Hmd.
  repeat split; try lia.
  - unfold wrap. apply N.mod_small. lia.
  - now rewrite N.Div0.mod_mul.
Qed.

Lemma next_chunk (i u : N) :
  (i mod 4 = 0)%N -> (u mod 4 = 0)%N -> (i < u)%N ->
  (i + 4 <= u)%N /\ ((i + 4) mod 4 = 0)%N.
Proof.
  intros Hi Hu Hlt.
  pose proof (N.Div0.div_mod i 4). pose proof (N.Div0.div_mod u 4).
  split; [lia | ].
  rewrite <- N.Div0.add_mod_idemp_l, Hi. reflexivity.
Qed.

Section Bulk.
Variables (values : list float32) (size : N).
Hypothesis Hview : valid_view values size 1.

Lemma bulk_load k : (k < size)%N -> load values k = Some (elt values k).
Proof.
  intros Hk. pose proof (view_load values size 1 Hview k Hk) as H.
  destruct (view_offset values size 1 Hview k Hk) as [_ Hw].
  rewrite Hw, N.mul_1_r in H. exact H.
Qed.

Lemma bulk_loadu i :
  (i + 3 < size)%N -> _mm_loadu_ps values i = Some (chunk values i).
Proof.
  intros Hi. unfold _mm_loadu_ps.
  rewrite !bulk_load by lia. reflexivity.
Qed.

Lemma bulk_visited_1 i :
  visited values (i + 1) 1 = visited values i 1 ++ [elt values i].
Proof. rewrite visited_succ, N.mul_1_r. reflexivity. Qed.

Lemma bulk_visited_4 i :
  visited values (i + 4) 1 = visited values i 1 ++ lane_list (chunk values i).
Proof.
  replace (i + 4)%N with (i + 1 + 1 + 1 + 1)%N by lia.
  rewrite !bulk_visited_1, <- !app_assoc.
  replace (i + 1 + 1)%N with (i + 2)%N by lia.
  replace (i + 2 + 1)%N with (i + 3)%N by lia.
  reflexivity.
Qed.

Lemma bulk_elt (Q : float32 -> Prop) k :
  Forall Q (visited values size 1) -> (k < size)%N -> Q (elt values k).
Proof.
  rewrite Forall_forall. intros H Hk. apply H, elem_of_visited.
  exists k. now rewrite N.mul_1_r.
Qed.

Lemma bulk_chunk (Q : float32 -> Prop) i :
  Forall Q (visited values size 1) -> (i + 3 < size)%N ->
  Forall Q (lane_list (chunk values i)).
Proof.
  intros H Hi. unfold lane_list, chunk. cbn.
  repeat (apply List.Forall_cons; [apply bulk_elt; [exact H | lia] | ]).
  apply List.Forall_nil.
Qed.

Lemma bulk_prefix_word32 i :
  (i <= size)%N -> Forall word32 (visited values i 1).
Proof.
  intros Hi. apply view_word32. now apply (view_prefix values size 1).
Qed.

Lemma sse2_vectorMinMaxSafe_acc :
  exists mn mx,
    sse2_vectorMinMaxSafe values size = Some (mn, mx) /\
    acc_min (List.filter is_finite (visited values size 1)) mn /\
    acc_max (List.filter is_finite (visited values size 1)) mx.
Proof.
  assert (Hsz : (size < SIZE_MOD)%N) by apply Hview.
  destruct (unroll_size size Hsz) as (Hu & Hle & Hgt & Hmod).
  pose proof (view_word32 values size 1 Hview) as HW.
  unfold sse2_vectorMinMaxSafe. rewrite Hu.
  set (F := fun i => List.filter is_finite (visited values i 1)).
  destruct (for_range_inv (size / 4 * 4) 4
    (vector_body sse2_vectorMinMaxSafe_iter values)
    (fun i st => (i <= size / 4 * 4)%N /\ (i mod 4 = 0)%N /\
                 lanes_min (F i) st.1 /\ lanes_max (F i) st.2))
    with (fuel := N.to_nat size) (i := 0%N)
         (acc := (_mm_set1_ps infinity, _mm_set1_ps neg_infinity))
    as (j & [a b] & -> & (Hj & _ & Ha & Hb) & Hge).
  - lia.
  - intros i [a b] (Hi & Hm & Ha & Hb) Hlt. cbn [fst snd] in Ha, Hb.
    destruct (next_chunk i _ Hm Hmod Hlt) as [Hn Hm']. split; [lia | ].
    unfold vector_body. rewrite bulk_loadu by lia.
    eexists. split; [reflexivity | ].
    cbn [sse2_vectorMinMaxSafe_iter fst snd].
    split; [exact Hn | split; [exact Hm' | ] ].
    unfold F. rewrite bulk_visited_4, List.filter_app.
    assert (Forall word32 (F i))
      by (apply Forall_list_filter, bulk_prefix_word32; lia).
    assert (Forall word32 (lane_list (chunk values i)))
      by (apply bulk_chunk; [exact HW | lia]).
    split; [now apply lanes_min_vector_safe
           | now apply lanes_max_vector_safe].
  - cbn [fst snd].
    split; [lia | split; [reflexivity | ] ].
    split; [apply lanes_min_init | apply lanes_max_init].
  - lia.
  - cbn [fst snd] in Ha, Hb. replace j with (size / 4 * 4)%N in * by lia.
    cbn [mbind option_bind].
    destruct (for_range_inv size 1
      (single_body sse2_stridedMinMaxSafe_iter values)
      (fun i st => (i <= size)%N /\
                   lanes_min (F i) st.1 /\ lanes_max (F i) st.2))
      with (fuel := N.to_nat size) (i := (size / 4 * 4)%N) (acc := (a, b))
      as (k & [a' b'] & -> & (Hk & Ha' & Hb') & Hge').
    + lia.
    + intros i [c d] (Hi & Hc & Hd) Hlt. cbn [fst snd] in Hc, Hd.
      split; [lia | ].
      unfold single_body. rewrite bulk_load by lia.
      eexists. split; [reflexivity | ].
      cbn [sse2_stridedMinMaxSafe_iter fst snd].
      split; [lia | ].
      unfold F. rewrite bulk_visited_1, List.filter_app.
      assert (Forall word32 (F i))
        by (apply Forall_list_filter, bulk_prefix_word32; lia).
      assert (word32 (elt values i)) by (apply bulk_elt; [exact HW | lia]).
      split; [now apply lanes_min_single_safe
             | now apply lanes_max_single_safe].
    + cbn. auto.
    + lia.
    + cbn [fst snd] in Ha', Hb'. replace k with size in * by lia.
      cbn [mbind option_bind]. rewrite sse2_reduceMinMax_lanes.
      eexists _, _. split; [reflexivity | ].
      split; [now apply lanes_min_reduce | now apply lanes_max_reduce].
Qed.

Lemma sse2_vectorMinMax_acc :
  (4 <= size)%N ->
  Forall (fun v => is_nan v = false) (visited values size 1) ->
  exists mn mx,
    sse2_vectorMinMax values size = Some (mn, mx) /\
    acc_min (visited values size 1) mn /\
    acc_max (visited values size 1) mx.
Proof.
  intros H4 Hnan.
  assert (Hsz : (size < SIZE_MOD)%N) by apply Hview.
  destruct (unroll_size size Hsz) as (Hu & Hle & Hgt & Hmod).
  unfold sse2_vectorMinMax. rewrite Hu, bulk_loadu by lia.
  cbn [mbind option_bind].
  destruct (for_range_inv (size / 4 * 4) 4
    (vector_body sse2_vectorMinMax_iter values)
    (fun i st => (i <= size / 4 * 4)%N /\ (i mod 4 = 0)%N /\
                 lanes_min (visited values i 1) st.1 /\
                 lanes_max (visited values i 1) st.2))
    with (fuel := N.to_nat size) (i := 4%N) (acc := (chunk values 0, chunk values 0))
    as (j & [a b] & -> & (Hj & _ & Ha & Hb) & Hge).
  - lia.
  - intros i [a b] (Hi & Hm & Ha & Hb) Hlt. cbn [fst snd] in Ha, Hb.
    destruct (next_chunk i _ Hm Hmod Hlt) as [Hn Hm']. split; [lia | ].
    unfold vector_body. rewrite bulk_loadu by lia.
    eexists. split; [reflexivity | ].
    cbn [sse2_vectorMinMax_iter fst snd].
    split; [exact Hn | split; [exact Hm' | ] ].
    rewrite bulk_visited_4.
    assert (Forall (fun v => is_nan v = false) (lane_list (chunk values i)))
      by (apply bulk_chunk; [exact Hnan | lia]).
    split; [now apply lanes_min_vector | now apply lanes_max_vector].
  - assert (Forall (fun v => is_nan v = false) (lane_list (chunk values 0)))
      by (apply bulk_chunk; [exact Hnan | lia]).
    assert (E : visited values 4 1 = lane_list (chunk values 0))
      by exact (bulk_visited_4 0).
    pose proof (N.Div0.div_mod size 4).
    pose proof (N.mod_upper_bound size 4 ltac:(lia)).
    rewrite E. cbn [fst snd].
    split; [lia | split; [reflexivity | ] ].
    split; [now apply lanes_min_first4 | now apply lanes_max_first4].
  - lia.
  - cbn [fst snd] in Ha, Hb. replace j with (size / 4 * 4)%N in * by lia.
    cbn [mbind option_bind].
    destruct (for_range_inv size 1
      (single_body sse2_stridedMinMax_iter values)
      (fun i st => (i <= size)%N /\
                   lanes_min (visited values i 1) st.1 /\
                   lanes_max (visited values i 1) st.2))
      with (fuel := N.to_nat size) (i := (size / 4 * 4)%N) (acc := (a, b))
      as (k & [a' b'] & -> & (Hk & Ha' & Hb') & Hge').
    + lia.
    + intros i [c d] (Hi & Hc & Hd) Hlt. cbn [fst snd] in Hc, Hd.
      split; [lia | ].
      unfold single_body. rewrite bulk_load by lia.
      eexists. split; [reflexivity | ].
      cbn [sse2_stridedMinMax_iter fst snd].
      split; [lia | ].
      rewrite bulk_visited_1.
      assert (is_nan (elt values i) = false)
        by (apply (bulk_elt (fun v => is_nan v = false)); [exact Hnan | lia]).
      split; [now apply lanes_min_single | now apply lanes_max_single].
    + cbn. auto.
    + lia.
    + cbn [fst snd] in Ha', Hb'. replace k with size in * by lia.
      cbn [mbind option_bind]. rewrite sse2_reduceMinMax_lanes.
      eexists _, _. split; [reflexivity | ].
      split; [now apply lanes_min_reduce | now apply lanes_max_reduce].
Qed.
End Bulk.

(* ================================================================== *)
(** ** From accumulators to extrema *)

Lemma acc_min_nil_inv m : acc_min [] m -> m = infinity.
Proof. intros (_ & _ & H). now apply list_elem_of_singleton in H. Qed.

Lemma acc_max_nil_inv m : acc_max [] m -> m = neg_infinity.
Proof. intros (_ & _ & H). now apply list_elem_of_singleton in H. Qed.

Lemma nonempty_elem {A : Type} (l : list A) : l <> [] -> exists x, x ∈ l.
Proof. destruct l as [ | x l]; [congruence | ]. exists x. apply list_elem_of_here. Qed.

Lemma acc_min_is_minimum l m :
  Forall word32 l -> Forall (fun v => is_nan v = false) l -> l <> [] ->
  acc_min l m -> is_minimum l m.
Proof.
  rewrite !Forall_forall. intros Hw Hn Hne (Nm & Km & Em). split.
  - apply elem_of_cons in Em as [-> | Em]; [ | exact Em].
    destruct (nonempty_elem l Hne) as [x Hx].
    pose proof (min_key_elem l x Hx). pose proof (key_range x (Hn x Hx)).
    rewrite key_infinity in Km.
    assert (x = infinity) as <-
      by (apply key_infinity_inv; [auto | rewrite key_infinity; lia]).
    exact Hx.
  - intros x Hx. rewrite fle_key, Nm, (Hn x Hx). cbn.
    pose proof (min_key_elem l x Hx). lia.
Qed.

Lemma acc_max_is_maximum l m :
  Forall word32 l -> Forall (fun v => is_nan v = false) l -> l <> [] ->
  acc_max l m -> is_maximum l m.
Proof.
  rewrite !Forall_forall. intros Hw Hn Hne (Nm & Km & Em). split.
  - apply elem_of_cons in Em as [-> | Em]; [ | exact Em].
    destruct (nonempty_elem l Hne) as [x Hx].
    pose proof (max_key_elem l x Hx). pose proof (key_range x (Hn x Hx)).
    rewrite key_neg_infinity in Km.
    assert (x = neg_infinity) as <-
      by (apply key_neg_infinity_inv; [auto | rewrite key_neg_infinity; lia]).
    exact Hx.
  - intros x Hx. rewrite fle_key, Nm, (Hn x Hx). cbn.
    pose proof (max_key_elem l x Hx). lia.
Qed.

Lemma acc_min_le_max l mn mx :
  l <> [] -> acc_min l mn -> acc_max l mx -> fle mn mx = true.
Proof.
  intros Hne (Nm & Km & _) (Nx & Kx & _).
  destruct (nonempty_elem l Hne) as [x Hx].
  pose proof (min_key_elem l x Hx). pose proof (max_key_elem l x Hx).
  rewrite fle_key, Nm, Nx. cbn. lia.
Qed.

Lemma same_number_key a b :
  word32 a -> word32 b -> is_nan a = false -> is_nan b = false ->
  key a = key b -> same_number a b.
Proof.
  intros Wa Wb Na Nb Hk. split.
  - rewrite feq_key, Na, Nb. cbn. lia.
  - pose proof (word32_split a Wa). pose proof (word32_split b Wb).
    pose proof (magnitude_range a). pose proof (magnitude_range b).
    unfold key in Hk. destruct (sign_bit a), (sign_bit b); lia.
Qed.

Lemma acc_same_value l mn mx mn' mx' :
  Forall word32 l ->
  acc_min l mn -> acc_max l mx -> acc_min l mn' -> acc_max l mx' ->
  same_value (mn, mx) (mn', mx').
Proof.
  intros Hw (N1 & K1 & E1) (N2 & K2 & E2) (N3 & K3 & E3) (N4 & K4 & E4).
  split; cbn; apply same_number_key; try assumption; try congruence.
  - exact (word32_seeded _ _ _ word32_infinity Hw E1).
  - exact (word32_seeded _ _ _ word32_infinity Hw E3).
  - exact (word32_seeded _ _ _ word32_neg_infinity Hw E2).
  - exact (word32_seeded _ _ _ word32_neg_infinity Hw E4).
Qed.

Lemma finite_list_not_nan l :
  Forall (fun v => is_nan v = false) (List.filter is_finite l).
Proof.
  apply Forall_forall. intros x Hx.
  apply list_elem_of_In, filter_In in Hx as [_ Hx].
  now apply finite_not_nan.
Qed.

(* ================================================================== *)
(** ** The dispatch and the two entry points *)

Lemma dispatch_Bulk sse2 mode size stride :
  dispatch sse2 mode size stride = Bulk <->
  sse2 = true /\ mode <> 1 /\ mode <> 2 /\ mode <> 3 /\
  stride = 1%N /\ (8 < size)%N.
Proof.
  unfold dispatch.
  destruct sse2; [ | split; [discriminate | intros [? _]; discriminate] ].
  destruct (Z.eqb_spec mode 2), (Z.eqb_spec mode 3), (Z.eqb_spec mode 1),
    (N.eqb_spec stride 1), (N.leb_spec size 8); cbn;
    split; try discriminate; try (intros; repeat split; (reflexivity || lia));
    intros (_ & ? & ? & ? & ? & ?); congruence || lia.
Qed.

Lemma scanArray_acc sse2 mode values size stride :
  valid_view values size stride ->
  exists mn mx,
    scanArray sse2 mode values size stride = Some (mn, mx) /\
    acc_min (List.filter is_finite (visited values size stride)) mn /\
    acc_max (List.filter is_finite (visited values size stride)) mx.
Proof.
  intros Hview. unfold scanArray.
  destruct (dispatch sse2 mode size stride) eqn:Hd.
  - now apply cpu_stridedMinMaxSafe_acc.
  - now apply sse2_stridedMinMaxSafe_acc.
  - apply dispatch_Bulk in Hd as (_ & _ & _ & _ & -> & _).
    now apply sse2_vectorMinMaxSafe_acc.
Qed.

Lemma unsafeScanArray_acc sse2 mode values size stride :
  valid_view values size stride ->
  Forall (fun v => is_nan v = false) (visited values size stride) ->
  exists mn mx,
    unsafeScanArray sse2 mode values size stride = Some (mn, mx) /\
    acc_min (visited values size stride) mn /\
    acc_max (visited values size stride) mx.
Proof.
  intros Hview Hnan. unfold unsafeScanArray.
  destruct (dispatch sse2 mode size stride) eqn:Hd.
  - destruct (cpu_stridedMinMax_acc values size stride Hview)
      as (mn & mx & Hr & Hm & Hx).
    rewrite filter_all in Hm, Hx
      by (eapply Forall_impl; [exact Hnan | intros v Hv; unfold not_nan; now rewrite Hv]).
    eauto.
  - now apply sse2_stridedMinMax_acc.
  - apply dispatch_Bulk in Hd as (_ & _ & _ & _ & -> & Hs).
    apply sse2_vectorMinMax_acc; [assumption | lia | assumption].
Qed.

(* ================================================================== *)
(** ** Buffers that agree on the visited offsets *)

Section Agree.
Variables (values values' : list float32) (size stride : N).
Hypothesis Hfit : offsets_fit size stride.
Hypothesis Hagree : agree_on values values' size stride.

Lemma agree_load i :
  (i < size)%N ->
  load values (wrap (i * stride)) = load values' (wrap (i * stride)).
Proof.
  destruct Hfit as [Hs Hoff]. intros Hi.
  assert (i * stride <= (size - 1) * stride)%N
    by (apply N.mul_le_mono_r; lia).
  unfold wrap. rewrite N.mod_small by (specialize (Hoff ltac:(lia)); lia).
  now apply Hagree.
Qed.

Lemma strided_agree {S : Type} (iter : float32 -> S -> S) fuel (s0 : S) :
  for_range (strided_body iter values stride) fuel 0%N size 1%N (0%N, s0) =
  for_range (strided_body iter values' stride) fuel 0%N size 1%N (0%N, s0).
Proof.
  apply (for_range_ext size 1 _ _ (fun i st => st.1 = wrap (i * stride)));
    [ | reflexivity].
  intros i [index s] Hidx Hlt. cbn in Hidx. subst index.
  unfold strided_body. rewrite (agree_load i Hlt). split; [reflexivity | ].
  intros a'. destruct (load values' _); cbn; [ | discriminate].
  intros [= <-]. cbn. unfold wrap.
  rewrite N.Div0.add_mod_idemp_l, N.Div0.mul_mod_idemp_l. f_equal. lia.
Qed.
End Agree.

Section AgreeBulk.
Variables (values values' : list float32) (size : N).
Hypothesis Hsize : (size < SIZE_MOD)%N.
Hypothesis Hagree : agree_on values values' size 1.

Lemma agree_load_1 k :
  (k < size)%N -> load values k = load values' k.
Proof.
  intros Hk. specialize (Hagree k Hk). now rewrite N.mul_1_r in Hagree.
Qed.

Lemma agree_loadu i :
  (i + 3 < size)%N -> _mm_loadu_ps values i = _mm_loadu_ps values' i.
Proof.
  intros Hi. unfold _mm_loadu_ps. rewrite !agree_load_1 by lia. reflexivity.
Qed.

Lemma vector_agree {S : Type} (iter : m128 -> S -> S) fuel i (s0 : S) :
  (i mod 4 = 0)%N ->
  for_range (vector_body iter values) fuel i (size / 4 * 4) 4%N s0 =
  for_range (vector_body iter values') fuel i (size / 4 * 4) 4%N s0.
Proof.
  destruct (unroll_size size Hsize) as (_ & Hle & _ & Hmod).
  apply (for_range_ext _ 4 _ _ (fun i _ => (i mod 4 = 0)%N)).
  intros k s Hk Hlt. destruct (next_chunk k _ Hk Hmod Hlt) as [Hn Hm].
  unfold vector_body. rewrite agree_loadu by lia. split; [reflexivity | ].
  intros _ _. unfold wrap. now rewrite (N.mod_small (k + 4) SIZE_MOD) by lia.
Qed.

Lemma single_agree {S : Type} (iter : float32 -> S -> S) fuel i (s0 : S) :
  for_range (single_body iter values) fuel i size 1%N s0 =
  for_range (single_body iter values') fuel i size 1%N s0.
Proof.
  apply (for_range_ext _ 1 _ _ (fun _ _ => True)); [ | exact I].
  intros k s _ Hlt. unfold single_body.
  rewrite agree_load_1 by lia. auto.
Qed.

Lemma sse2_vectorMinMaxSafe_agree :
  sse2_vectorMinMaxSafe values size = sse2_vectorMinMaxSafe values' size.
Proof.
  destruct (unroll_size size Hsize) as (Hu & _).
  unfold sse2_vectorMinMaxSafe. rewrite Hu, vector_agree by reflexivity.
  destruct (for_range _ _ _ _ _ _) as [st | ]; [ | reflexivity].
  cbn [mbind option_bind]. now rewrite single_agree.
Qed.

Lemma sse2_vectorMinMax_agree :
  (4 <= size)%N ->
  sse2_vectorMinMax values size = sse2_vectorMinMax values' size.
Proof.
  intros H4. destruct (unroll_size size Hsize) as (Hu & _).
  unfold sse2_vectorMinMax. rewrite Hu, agree_loadu by lia.
  destruct (_mm_loadu_ps values' 0) as [t | ]; [ | reflexivity].
  cbn [mbind option_bind]. rewrite vector_agree by reflexivity.
  destruct (for_range _ _ _ _ _ _) as [st | ]; [ | reflexivity].
  cbn [mbind option_bind]. now rewrite single_agree.
Qed.
End AgreeBulk.

(* ================================================================== *)
(** ** The safe and the unsafe updates on finite elements *)

Lemma masked_lane_finite v r :
  word32 v -> is_finite v = true -> masked_lane v r = v.
Proof.
  intros Hv Hf. unfold masked_lane, andnot_lane.
  rewrite valid_lane_spec, Hf, (land_all_ones v Hv), Z.lxor_nilpotent.
  rewrite Z.land_0_l. apply Z.lor_0_r.
Qed.

Lemma cpu_safe_iter_finite v s :
  is_finite v = true ->
  cpu_stridedMinMaxSafe_iter v s = cpu_stridedMinMax_iter v s.
Proof.
  intros Hf. destruct s as [m x]. unfold cpu_stridedMinMaxSafe_iter.
  now rewrite cpu_isFinite_is_finite, Hf.
Qed.

Lemma sse2_safe_iter_finite v s :
  word32 v /\ is_finite v = true ->
  sse2_stridedMinMaxSafe_iter v s = sse2_stridedMinMax_iter v s.
Proof.
  intros [Hv Hf]. destruct s as [a b].
  unfold sse2_stridedMinMaxSafe_iter, sse2_stridedMinMax_iter.
  rewrite !masked_lanes. unfold _mm_min_ss, _mm_max_ss, low2, _mm_set_ss.
  cbn [lane0 lane1 lane2 lane3].
  now rewrite !masked_lane_finite.
Qed.

Lemma sse2_vector_safe_iter_finite t s :
  Forall (fun v => word32 v /\ is_finite v = true) (lane_list t) ->
  sse2_vectorMinMaxSafe_iter t s = sse2_vectorMinMax_iter t s.
Proof.
  destruct t as [t0 t1 t2 t3], s as [a b]. unfold lane_list. cbn [lane0 lane1 lane2 lane3].
  intros H. apply Forall_cons in H as [[W0 F0] H].
  apply Forall_cons in H as [[W1 F1] H]. apply Forall_cons in H as [[W2 F2] H].
  apply Forall_cons in H as [[W3 F3] _].
  unfold sse2_vectorMinMaxSafe_iter, sse2_vectorMinMax_iter.
  rewrite !masked_lanes. cbn [lane0 lane1 lane2 lane3].
  now rewrite !masked_lane_finite.
Qed.

Lemma min_lane_seed v : is_finite v = true -> min_lane v infinity = v.
Proof.
  intros Hf. unfold min_lane. rewrite flt_key, (finite_not_nan v Hf).
  change (is_nan infinity) with false. rewrite key_infinity.
  apply key_finite in Hf. cbn.
  destruct (Z.ltb_spec (key v) 0x7F800000); [reflexivity | lia].
Qed.

Lemma max_lane_seed v : is_finite v = true -> max_lane v neg_infinity = v.
Proof.
  intros Hf. unfold max_lane. rewrite fgt_key, (finite_not_nan v Hf).
  change (is_nan neg_infinity) with false. rewrite key_neg_infinity.
  apply key_finite in Hf. cbn.
  destruct (Z.ltb_spec (- 0x7F800000) (key v)); [reflexivity | lia].
Qed.

Lemma sse2_vector_iter_seed t :
  Forall (fun v => word32 v /\ is_finite v = true) (lane_list t) ->
  sse2_vectorMinMax_iter t (_mm_set1_ps infinity, _mm_set1_ps neg_infinity) =
  (t, t).
Proof.
  destruct t as [t0 t1 t2 t3]. unfold lane_list. cbn [lane0 lane1 lane2 lane3].
  intros H. apply Forall_cons in H as [[W0 F0] H].
  apply Forall_cons in H as [[W1 F1] H]. apply Forall_cons in H as [[W2 F2] H].
  apply Forall_cons in H as [[W3 F3] _].
  unfold sse2_vectorMinMax_iter, _mm_min_ps, _mm_max_ps, map2, _mm_set1_ps.
  cbn [lane0 lane1 lane2 lane3].
  now rewrite !min_lane_seed, !max_lane_seed.
Qed.

Lemma fold_left_ext_Forall {S : Type} (Q : float32 -> Prop)
    (f g : S -> float32 -> S) (V : list float32) (s : S) :
  Forall Q V -> (forall s v, Q v -> f s v = g s v) ->
  fold_left f V s = fold_left g V s.
Proof.
  intros HQ Hfg. revert s. induction HQ as [ | v V Hv _ IH]; intros s.
  - reflexivity.
  - cbn. rewrite Hfg by exact Hv. apply IH.
Qed.

Lemma for_range_S {A : Type} (body : N -> A -> option A) fuel i bound step acc :
  (i < bound)%N ->
  for_range body (S fuel) i bound step acc =
  body i acc ≫= for_range body fuel (wrap (i + step)) bound step.
Proof.
  intros Hlt. cbn [for_range].
  destruct (N.ltb_spec i bound); [reflexivity | lia].
Qed.

Section SafeUnsafe.
Variables (values : list float32) (size stride : N).
Hypothesis Hview : valid_view values size stride.
Hypothesis Hfin :
  Forall (fun v => is_finite v = true) (visited values size stride).

Lemma visited_word32_finite :
  Forall (fun v => word32 v /\ is_finite v = true)
         (visited values size stride).
Proof.
  pose proof (view_word32 values size stride Hview) as Hw.
  rewrite Forall_forall in *. auto.
Qed.

Lemma cpu_safe_unsafe :
  cpu_stridedMinMaxSafe values size stride =
  cpu_stridedMinMax values size stride.
Proof.
  unfold cpu_stridedMinMaxSafe, cpu_stridedMinMax.
  destruct (strided_fold values size stride Hview
              cpu_stridedMinMaxSafe_iter (infinity, neg_infinity))
    as [i1 ->].
  destruct (strided_fold values size stride Hview
              cpu_stridedMinMax_iter (infinity, neg_infinity))
    as [i2 ->].
  cbn. f_equal. apply (fold_left_ext_Forall _ _ _ _ _ Hfin).
  intros s v Hv. now apply cpu_safe_iter_finite.
Qed.

Lemma sse2_strided_safe_unsafe :
  sse2_stridedMinMaxSafe values size stride =
  sse2_stridedMinMax values size stride.
Proof.
  unfold sse2_stridedMinMaxSafe, sse2_stridedMinMax.
  destruct (strided_fold values size stride Hview
              sse2_stridedMinMaxSafe_iter
              (_mm_set_ss infinity, _mm_set_ss neg_infinity)) as [i1 ->].
  destruct (strided_fold values size stride Hview
              sse2_stridedMinMax_iter
              (_mm_set_ss infinity, _mm_set_ss neg_infinity)) as [i2 ->].
  cbn [mbind option_bind snd].
  rewrite (fold_left_ext_Forall _ _
             (fun s v => sse2_stridedMinMax_iter v s) _ _
             visited_word32_finite); [reflexivity | ].
  intros s v Hv. now apply sse2_safe_iter_finite.
Qed.
End SafeUnsafe.

Section SafeUnsafeBulk.
Variables (values : list float32) (size : N).
Hypothesis Hview : valid_view values size 1.
Hypothesis Hfin : Forall (fun v => is_finite v = true) (visited values size 1).
Hypothesis H4 : (4 <= size)%N.

Lemma sse2_vector_safe_unsafe :
  sse2_vectorMinMaxSafe values size = sse2_vectorMinMax values size.
Proof.
  assert (Hsz : (size < SIZE_MOD)%N) by apply Hview.
  destruct (unroll_size size Hsz) as (Hu & Hle & Hgt & Hmod).
  pose proof (visited_word32_finite values size 1 Hview Hfin) as HWF.
  pose proof (N.Div0.div_mod size 4) as Hdm.
  pose proof (N.mod_upper_bound size 4 ltac:(lia)) as Hub.
  unfold sse2_vectorMinMaxSafe, sse2_vectorMinMax.
  rewrite Hu, (bulk_loadu values size Hview 0) by lia.
  cbn [mbind option_bind].
  destruct (N.to_nat size) as [ | fuel] eqn:Ef; [lia | ].
  (* the first unrolled iteration of the safe loop loads the seeds *)
  rewrite for_range_S by lia.
  replace (vector_body sse2_vectorMinMaxSafe_iter values 0%N
             (_mm_set1_ps infinity, _mm_set1_ps neg_infinity))
    with (Some (sse2_vectorMinMaxSafe_iter (chunk values 0)
                  (_mm_set1_ps infinity, _mm_set1_ps neg_infinity)))
    by (unfold vector_body;
        now rewrite (bulk_loadu values size Hview 0) by lia).
  cbn [mbind option_bind].
  rewrite sse2_vector_safe_iter_finite, sse2_vector_iter_seed
    by (apply (bulk_chunk values size); [exact HWF | lia]).
  change (wrap (0 + 4)) with 4%N.
  (* the remaining iterations are those of the unsafe loop *)
  assert (Hloop : forall st,
    for_range (vector_body sse2_vectorMinMaxSafe_iter values) fuel
      4%N (size / 4 * 4) 4%N st =
    for_range (vector_body sse2_vectorMinMax_iter values) (S fuel)
      4%N (size / 4 * 4) 4%N st).
  { intros st.
    rewrite (for_range_ext (size / 4 * 4) 4
               (vector_body sse2_vectorMinMaxSafe_iter values)
               (vector_body sse2_vectorMinMax_iter values)
               (fun i _ => (i mod 4 = 0)%N)); [ | | reflexivity].
    - destruct (for_range_inv (size / 4 * 4) 4
        (vector_body sse2_vectorMinMax_iter values)
        (fun i _ => (i <= size / 4 * 4)%N /\ (i mod 4 = 0)%N))
        with (fuel := fuel) (i := 4%N) (acc := st)
        as (j & r & Hr & _).
      + lia.
      + intros i s [Hi Hm] Hlt.
        destruct (next_chunk i _ Hm Hmod Hlt) as [Hn Hm'].
        split; [lia | ]. unfold vector_body.
        rewrite (bulk_loadu values size Hview i) by lia.
        eexists. split; [reflexivity | auto].
      + split; [lia | reflexivity].
      + lia.
      + rewrite Hr. symmetry. now apply for_range_fuel.
    - intros i s Hm Hlt. destruct (next_chunk i _ Hm Hmod Hlt) as [Hn Hm'].
      unfold vector_body.
      rewrite (bulk_loadu values size Hview i) by lia.
      cbn [mbind option_bind]. split.
      + rewrite sse2_vector_safe_iter_finite; [reflexivity | ].
        apply (bulk_chunk values size); [exact HWF | lia].
      + intros _ _. unfold wrap.
        now rewrite (N.mod_small (i + 4) SIZE_MOD) by lia. }
  rewrite Hloop.
  destruct (for_range _ _ _ _ _ _) as [st | ]; [ | reflexivity].
  cbn [mbind option_bind].
  rewrite (for_range_ext size 1
             (single_body sse2_stridedMinMaxSafe_iter values)
             (single_body sse2_stridedMinMax_iter values)
             (fun _ _ => True)); [reflexivity | | exact I].
  intros i s _ Hlt. unfold single_body.
  rewrite (bulk_load values size Hview i) by lia.
  cbn [mbind option_bind]. split; [ | auto].
  rewrite sse2_safe_iter_finite; [reflexivity | ].
  apply (bulk_elt values size); [exact HWF | lia].
Qed.
End SafeUnsafeBulk.

(* ================================================================== *)
(** ** Concrete runs *)

(** The preconditions of a call on a sample buffer, by computation. *)
Ltac solve_view :=
  unfold valid_view, offsets_fit, SIZE_MOD;
  unfold buf_mixed, buf_nan_in_bulk, buf_zeros, buf_no_nan, buf_strided,
    buf_finite, buf_scalar, buf_gaps, buf_gaps', buf_nine, buf_mostly_nan,
    buf_only_nan, buf_one_nan;
  cbn [length];
  repeat match goal with
    | |- _ /\ _ => split
    | |- Forall _ (_ :: _) => apply List.Forall_cons
    | |- Forall _ [] => apply List.Forall_nil
    | |- word32 _ => unfold word32; cbv; split; [discriminate | reflexivity]
    | |- _ -> _ => intros _
    | |- (_ < _)%N => reflexivity
    | |- (_ <= _)%N => cbv; discriminate
    end.

(** A property of each visited element of a sample buffer, by listing
    the visited elements. *)
Ltac solve_visited :=
  cbv [visited N.to_nat Pos.to_nat Pos.iter_op Nat.add seq map nth Nat.mul
       buf_mixed buf_nan_in_bulk buf_zeros buf_no_nan buf_strided
       buf_finite buf_scalar buf_gaps buf_gaps' buf_nine buf_mostly_nan
       buf_only_nan buf_one_nan];
  repeat (apply List.Forall_cons; [reflexivity | ]);
  apply List.Forall_nil.

Example spec_scenario_1 :
  scanArray true 0 [three; one; two] 3 1 = Some (one, three) /\
  unsafeScanArray true 0 [three; one; two] 3 1 = Some (one, three).
Proof. split; reflexivity. Qed.

Example spec_scenario_2 :
  scanArray true 0 [quiet_nan; one; two; neg_infinity; infinity; five] 6 1
  = Some (one, five).
Proof. reflexivity. Qed.

Example spec_scenario_3 :
  scanArray true 0 [one; nine; two; nine; three; nine] 3 2 = Some (one, three).
Proof. reflexivity. Qed.

Example spec_scenario_5 :
  scanArray true 0 [quiet_nan; quiet_nan; quiet_nan] 3 1 = Some sentinel.
Proof. reflexivity. Qed.

Example bulk_safe_run :
  scanArray true 0
    [quiet_nan; one; two; neg_infinity; infinity; five; nine; nine;
     quiet_nan; one; three] 11 1 = Some (one, nine).
Proof. reflexivity. Qed.

(* ================================================================== *)
(** ** The claims *)

(** C1.  For every buffer, stride and dispatch mode (0-3 and any other
    value alike) a call of [scanArray] on a valid view returns the minimum
    and the maximum of exactly the finite visited elements: both results
    are finite visited elements, the first [<=] and the second [>=] every
    finite visited element.  When no visited element is finite the result
    is the sentinel pair (+Infinity, -Infinity). *)
Theorem scanArray_extrema_of_finite (sse2 : bool) (mode : Z)
    (values : list float32) (size stride : N) :
  valid_view values size stride -> (0 < size)%N ->
  exists mn mx,
    scanArray sse2 mode values size stride = Some (mn, mx) /\
    let F := List.filter is_finite (visited values size stride) in
    (F <> [] -> is_minimum F mn /\ is_maximum F mx) /\
    (F = [] -> (mn, mx) = sentinel).
Proof.
  intros Hview _.
  destruct (scanArray_acc sse2 mode values size stride Hview)
    as (mn & mx & Hr & Hm & Hx).
  exists mn, mx. split; [exact Hr | ]. cbn zeta. split.
  - intros Hne.
    pose proof (Forall_list_filter word32 is_finite _
                  (view_word32 values size stride Hview)) as Hw.
    pose proof (finite_list_not_nan (visited values size stride)) as Hn.
    split; [now apply acc_min_is_minimum | now apply acc_max_is_maximum].
  - intros He. rewrite He in Hm, Hx.
    apply acc_min_nil_inv in Hm. apply acc_max_nil_inv in Hx. now subst.
Qed.

Lemma scanArray_extrema_of_finite_witness :
  valid_view buf_mixed 6 1 /\ (0 < 6)%N /\
  exists mn mx,
    scanArray true 0 buf_mixed 6 1 = Some (mn, mx) /\
    let F := List.filter is_finite (visited buf_mixed 6 1) in
    (F <> [] -> is_minimum F mn /\ is_maximum F mx) /\
    (F = [] -> (mn, mx) = sentinel).
Proof.
  assert (Hv : valid_view buf_mixed 6 1) by solve_view.
  split; [exact Hv | split; [reflexivity | ] ].
  apply (scanArray_extrema_of_finite true 0 buf_mixed 6 1 Hv). reflexivity.
Defined.

(** C2 (as stated, refuted).  On the contiguous buffer
    [1; NaN; 2; 3; 5; 5; 5; 5; 9] the bulk path of [unsafeScanArray]
    (mode 0) returns (NaN, NaN), the scalar path (mode 2) returns (1, 9)
    and the strided vector path (mode 1) returns (2, 9): the modes do not
    agree on an input that contains a NaN.  On [+0; -0] the vector paths
    of [scanArray] return the bits of -0 and the scalar path those of +0:
    equal numbers, different bit patterns. *)
Lemma dispatch_mode_counterexample :
  valid_view buf_nan_in_bulk 9 1 /\
  unsafeScanArray true 0 buf_nan_in_bulk 9 1 = Some (quiet_nan, quiet_nan) /\
  unsafeScanArray true 1 buf_nan_in_bulk 9 1 = Some (two, nine) /\
  unsafeScanArray true 2 buf_nan_in_bulk 9 1 = Some (one, nine) /\
  unsafeScanArray true 0 buf_nan_in_bulk 9 1 <>
    unsafeScanArray true 2 buf_nan_in_bulk 9 1 /\
  feq quiet_nan one = false /\ feq two one = false /\
  valid_view buf_zeros 2 1 /\
  scanArray true 0 buf_zeros 2 1 = Some (neg_zero, neg_zero) /\
  scanArray true 2 buf_zeros 2 1 = Some (0, 0) /\
  neg_zero <> 0.
Proof.
  split; [solve_view | ].
  do 6 (split; [vm_compute; first [reflexivity | discriminate] | ]).
  split; [solve_view | ].
  repeat match goal with |- _ /\ _ => split end;
    vm_compute; first [reflexivity | discriminate].
Qed.

(** C2 (amended).  On every valid view the result of [scanArray] is the
    same pair of numbers whatever the build flag and the dispatch mode:
    the two minima (maxima) compare equal and are the same bits unless
    both are zeros.  The same holds for [unsafeScanArray] when no visited
    element is a NaN (infinities are allowed). *)
Theorem dispatch_mode_invariance (sse2 sse2' : bool) (mode mode' : Z)
    (values : list float32) (size stride : N) :
  valid_view values size stride ->
  (exists r r',
     scanArray sse2 mode values size stride = Some r /\
     scanArray sse2' mode' values size stride = Some r' /\
     same_value r r') /\
  (Forall (fun v => is_nan v = false) (visited values size stride) ->
   exists r r',
     unsafeScanArray sse2 mode values size stride = Some r /\
     unsafeScanArray sse2' mode' values size stride = Some r' /\
     same_value r r').
Proof.
  intros Hview.
  pose proof (view_word32 values size stride Hview) as Hw. split.
  - destruct (scanArray_acc sse2 mode values size stride Hview)
      as (mn & mx & Hr & Hm & Hx).
    destruct (scanArray_acc sse2' mode' values size stride Hview)
      as (mn' & mx' & Hr' & Hm' & Hx').
    exists (mn, mx), (mn', mx').
    split; [exact Hr | split; [exact Hr' | ] ].
    apply (acc_same_value
             (List.filter is_finite (visited values size stride)));
      auto using Forall_list_filter.
  - intros Hnan.
    destruct (unsafeScanArray_acc sse2 mode values size stride Hview Hnan)
      as (mn & mx & Hr & Hm & Hx).
    destruct (unsafeScanArray_acc sse2' mode' values size stride Hview Hnan)
      as (mn' & mx' & Hr' & Hm' & Hx').
    exists (mn, mx), (mn', mx').
    split; [exact Hr | split; [exact Hr' | ] ].
    apply (acc_same_value (visited values size stride)); auto.
Qed.

Lemma dispatch_mode_invariance_witness :
  valid_view buf_no_nan 10 1 /\
  Forall (fun v => is_nan v = false) (visited buf_no_nan 10 1) /\
  (exists r r',
     scanArray true 0 buf_no_nan 10 1 = Some r /\
     scanArray true 2 buf_no_nan 10 1 = Some r' /\ same_value r r') /\
  (exists r r',
     unsafeScanArray true 0 buf_no_nan 10 1 = Some r /\
     unsafeScanArray true 2 buf_no_nan 10 1 = Some r' /\ same_value r r').
Proof.
  assert (Hv : valid_view buf_no_nan 10 1) by solve_view.
  assert (Hn : Forall (fun v => is_nan v = false) (visited buf_no_nan 10 1))
    by solve_visited.
  destruct (dispatch_mode_invariance true true 0 2 buf_no_nan 10 1 Hv)
    as [Hsafe Hunsafe].
  split; [exact Hv | split; [exact Hn | split; [exact Hsafe | ] ] ].
  exact (Hunsafe Hn).
Defined.

(** C3.  With [size == 0] both entry points return exactly the sentinel
    pair (+Infinity, -Infinity), for any buffer, stride, build flag and
    dispatch mode. *)
Theorem empty_scan_is_sentinel (sse2 : bool) (mode : Z)
    (values : list float32) (stride : N) :
  scanArray sse2 mode values 0 stride = Some sentinel /\
  unsafeScanArray sse2 mode values 0 stride = Some sentinel.
Proof.
  unfold scanArray, unsafeScanArray, dispatch.
  destruct sse2, (mode =? 2), (mode =? 3), (mode =? 1), (stride =? 1)%N;
    split; reflexivity.
Qed.

(** C4 (as stated, refuted).  With the single visited element NaN,
    [unsafeScanArray] returns (NaN, NaN) on the vector paths and
    (+Infinity, -Infinity) on the scalar path: a visited element exists
    and [min <= max] fails in every mode.  With the visited elements
    [1; NaN] the vector path returns (NaN, NaN) although one element is
    not a NaN. *)
Lemma min_le_max_counterexample :
  valid_view buf_only_nan 1 1 /\
  visited buf_only_nan 1 1 = [quiet_nan] /\
  unsafeScanArray true 0 buf_only_nan 1 1 = Some (quiet_nan, quiet_nan) /\
  unsafeScanArray true 1 buf_only_nan 1 1 = Some (quiet_nan, quiet_nan) /\
  unsafeScanArray true 2 buf_only_nan 1 1 = Some (infinity, neg_infinity) /\
  unsafeScanArray true 3 buf_only_nan 1 1 = Some (infinity, neg_infinity) /\
  fle quiet_nan quiet_nan = false /\ fle infinity neg_infinity = false /\
  valid_view buf_one_nan 2 1 /\
  visited buf_one_nan 2 1 = [one; quiet_nan] /\
  unsafeScanArray true 0 buf_one_nan 2 1 = Some (quiet_nan, quiet_nan).
Proof.
  split; [solve_view | ].
  do 7 (split; [vm_compute; reflexivity | ]).
  split; [solve_view | ]. split; vm_compute; reflexivity.
Qed.

(** C4 (amended).  On every valid view and in every dispatch mode:
    [scanArray] returns [min <= max] when at least one visited element is
    finite and exactly (+Infinity, -Infinity) otherwise; [unsafeScanArray],
    when no visited element is a NaN, returns [min <= max] if [size > 0]
    and exactly (+Infinity, -Infinity) if [size == 0]. *)
Theorem min_le_max_or_sentinel (sse2 : bool) (mode : Z)
    (values : list float32) (size stride : N) :
  valid_view values size stride ->
  (exists mn mx,
     scanArray sse2 mode values size stride = Some (mn, mx) /\
     let F := List.filter is_finite (visited values size stride) in
     (F <> [] -> fle mn mx = true) /\ (F = [] -> (mn, mx) = sentinel)) /\
  (Forall (fun v => is_nan v = false) (visited values size stride) ->
   exists mn mx,
     unsafeScanArray sse2 mode values size stride = Some (mn, mx) /\
     ((0 < size)%N -> fle mn mx = true) /\
     (size = 0%N -> (mn, mx) = sentinel)).
Proof.
  intros Hview. split.
  - destruct (scanArray_acc sse2 mode values size stride Hview)
      as (mn & mx & Hr & Hm & Hx).
    exists mn, mx. split; [exact Hr | ]. cbn zeta. split.
    + intros Hne. now apply (acc_min_le_max _ _ _ Hne Hm Hx).
    + intros He. rewrite He in Hm, Hx.
      apply acc_min_nil_inv in Hm. apply acc_max_nil_inv in Hx. now subst.
  - intros Hnan.
    destruct (unsafeScanArray_acc sse2 mode values size stride Hview Hnan)
      as (mn & mx & Hr & Hm & Hx).
    exists mn, mx. split; [exact Hr | ]. split.
    + intros Hpos.
      assert (Hne : visited values size stride <> []).
      { intros He. apply (f_equal length) in He.
        rewrite visited_length in He. cbn in He. lia. }
      exact (acc_min_le_max _ _ _ Hne Hm Hx).
    + intros ->. rewrite visited_0 in Hm, Hx.
      apply acc_min_nil_inv in Hm. apply acc_max_nil_inv in Hx. now subst.
Qed.

Lemma min_le_max_or_sentinel_witness :
  valid_view buf_strided 3 2 /\
  Forall (fun v => is_nan v = false) (visited buf_strided 3 2) /\
  (exists mn mx,
     scanArray true 0 buf_strided 3 2 = Some (mn, mx) /\
     let F := List.filter is_finite (visited buf_strided 3 2) in
     (F <> [] -> fle mn mx = true) /\ (F = [] -> (mn, mx) = sentinel)) /\
  (exists mn mx,
     unsafeScanArray true 0 buf_strided 3 2 = Some (mn, mx) /\
     ((0 < 3)%N -> fle mn mx = true) /\
     (3%N = 0%N -> (mn, mx) = sentinel)).
Proof.
  assert (Hv : valid_view buf_strided 3 2) by solve_view.
  assert (Hn : Forall (fun v => is_nan v = false) (visited buf_strided 3 2))
    by solve_visited.
  destruct (min_le_max_or_sentinel true 0 buf_strided 3 2 Hv)
    as [Hsafe Hunsafe].
  split; [exact Hv | split; [exact Hn | split; [exact Hsafe | ] ] ].
  exact (Hunsafe Hn).
Defined.

(** C5.  [cpu_isFinite] is a pure function of the 32 bits of its
    argument; it returns true exactly when the value is neither a NaN nor
    +Infinity nor -Infinity, and it decides so by masking off the sign bit
    (AND with 0x7FFFFFFF) and testing that what is left is strictly below
    the all-ones-exponent pattern 0x7F800000. *)
Theorem cpu_isFinite_correct (v : float32) :
  word32 v ->
  (cpu_isFinite v = true <->
   is_nan v = false /\ v <> infinity /\ v <> neg_infinity) /\
  cpu_isFinite v = (Z.land v 0x7FFFFFFF <? 0x7F800000) /\
  cpu_isFinite v = is_finite v.
Proof.
  intros Hv. split; [ | split; [reflexivity | apply cpu_isFinite_is_finite] ].
  rewrite cpu_isFinite_is_finite, is_finite_magnitude, is_nan_magnitude.
  pose proof (word32_split v Hv) as Hs. pose proof (magnitude_range v).
  unfold infinity, neg_infinity.
  destruct (Z.ltb_spec (magnitude v) 0x7F800000),
           (Z.ltb_spec 0x7F800000 (magnitude v)); split;
    try discriminate; try lia; try (intros; exfalso; lia).
  - intros _. destruct (sign_bit v); repeat split; lia.
  - intros (_ & Hp & Hn). destruct (sign_bit v); lia.
Qed.

Lemma cpu_isFinite_correct_witness :
  word32 one /\
  ((cpu_isFinite one = true <->
    is_nan one = false /\ one <> infinity /\ one <> neg_infinity) /\
   cpu_isFinite one = (Z.land one 0x7FFFFFFF <? 0x7F800000) /\
   cpu_isFinite one = is_finite one).
Proof.
  assert (Hw : word32 one) by (unfold word32, one; lia).
  split; [exact Hw | exact (cpu_isFinite_correct one Hw)].
Defined.

(** C6.  On a non-empty valid view whose visited elements are all finite,
    [scanArray] and [unsafeScanArray] return exactly the same pair, bit for
    bit, under every build flag and dispatch mode. *)
Theorem safe_unsafe_agree_on_finite (sse2 : bool) (mode : Z)
    (values : list float32) (size stride : N) :
  valid_view values size stride -> (0 < size)%N ->
  Forall (fun v => is_finite v = true) (visited values size stride) ->
  scanArray sse2 mode values size stride =
    unsafeScanArray sse2 mode values size stride /\
  exists r, scanArray sse2 mode values size stride = Some r.
Proof.
  intros Hview _ Hfin. split.
  - unfold scanArray, unsafeScanArray.
    destruct (dispatch sse2 mode size stride) eqn:Hd.
    + now apply cpu_safe_unsafe.
    + now apply sse2_strided_safe_unsafe.
    + apply dispatch_Bulk in Hd as (_ & _ & _ & _ & -> & Hs).
      apply sse2_vector_safe_unsafe; [assumption | assumption | lia].
  - destruct (scanArray_acc sse2 mode values size stride Hview)
      as (mn & mx & Hr & _). eauto.
Qed.

Lemma safe_unsafe_agree_on_finite_witness :
  valid_view buf_finite 10 1 /\ (0 < 10)%N /\
  Forall (fun v => is_finite v = true) (visited buf_finite 10 1) /\
  scanArray true 0 buf_finite 10 1 = unsafeScanArray true 0 buf_finite 10 1 /\
  exists r, scanArray true 0 buf_finite 10 1 = Some r.
Proof.
  assert (Hv : valid_view buf_finite 10 1) by solve_view.
  assert (Hf : Forall (fun v => is_finite v = true) (visited buf_finite 10 1))
    by solve_visited.
  split; [exact Hv | split; [reflexivity | split; [exact Hf | ] ] ].
  exact (safe_unsafe_agree_on_finite true 0 buf_finite 10 1 Hv eq_refl Hf).
Defined.

(** C7.  The scalar unsafe reduction [cpu_stridedMinMax], which
    [unsafeScanArray] uses when the vector code is compiled out or the mode
    is 2 or 3, visits the [size] elements at stride steps with the running
    pair seeded at (+Infinity, -Infinity) and updated by plain
    comparisons.  A NaN element changes neither the running minimum nor
    the running maximum, and the result is the minimum and the maximum of
    the visited elements that are not NaN, infinities included: a visited
    +Infinity is the maximum, a visited -Infinity is the minimum. *)
Theorem cpu_stridedMinMax_skips_nan (values : list float32) (size stride : N) :
  valid_view values size stride ->
  (forall mode, unsafeScanArray false mode values size stride =
                  cpu_stridedMinMax values size stride) /\
  unsafeScanArray true 2 values size stride =
    cpu_stridedMinMax values size stride /\
  unsafeScanArray true 3 values size stride =
    cpu_stridedMinMax values size stride /\
  (forall v mn mx, is_nan v = true ->
     cpu_stridedMinMax_iter v (mn, mx) = (mn, mx)) /\
  exists mn mx,
    cpu_stridedMinMax values size stride = Some (mn, mx) /\
    let W := List.filter not_nan (visited values size stride) in
    (W = [] -> (mn, mx) = sentinel) /\
    (W <> [] -> is_minimum W mn /\ is_maximum W mx) /\
    (infinity ∈ visited values size stride -> mx = infinity) /\
    (neg_infinity ∈ visited values size stride -> mn = neg_infinity).
Proof.
  intros Hview. do 3 (split; [reflexivity | ]).
  split; [intros v mn mx; apply cpu_iter_nan | ].
  destruct (cpu_stridedMinMax_acc values size stride Hview)
    as (mn & mx & Hr & Hm & Hx).
  exists mn, mx. split; [exact Hr | ]. cbn zeta.
  pose proof (Forall_list_filter word32 not_nan _
                (view_word32 values size stride Hview)) as Hw.
  assert (Hn : Forall (fun v => is_nan v = false)
                 (List.filter not_nan (visited values size stride))).
  { apply Forall_forall. intros x Hx'.
    apply list_elem_of_In, filter_In in Hx' as [_ Hx'].
    unfold not_nan in Hx'. now destruct (is_nan x). }
  assert (Hin : forall x, is_nan x = false ->
                  x ∈ visited values size stride ->
                  x ∈ List.filter not_nan (visited values size stride)).
  { intros x Hnx Hx'. apply list_elem_of_In, filter_In.
    split; [now apply list_elem_of_In | unfold not_nan; now rewrite Hnx]. }
  split; [ | split; [ | split] ].
  - intros He. rewrite He in Hm, Hx.
    apply acc_min_nil_inv in Hm. apply acc_max_nil_inv in Hx. now subst.
  - intros Hne.
    split; [now apply acc_min_is_minimum | now apply acc_max_is_maximum].
  - intros Hp. apply (Hin infinity eq_refl) in Hp.
    destruct Hx as (Nx & Kx & Ex).
    apply key_infinity_inv.
    + exact (word32_seeded _ _ _ word32_neg_infinity Hw Ex).
    + pose proof (max_key_elem _ _ Hp). pose proof (key_range mx Nx).
      rewrite key_infinity in *. lia.
  - intros Hp. apply (Hin neg_infinity eq_refl) in Hp.
    destruct Hm as (Nm & Km & Em).
    apply key_neg_infinity_inv.
    + exact (word32_seeded _ _ _ word32_infinity Hw Em).
    + pose proof (min_key_elem _ _ Hp). pose proof (key_range mn Nm).
      rewrite key_neg_infinity in *. lia.
Qed.

Lemma cpu_stridedMinMax_skips_nan_witness :
  valid_view buf_scalar 5 1 /\
  cpu_stridedMinMax buf_scalar 5 1 = Some (one, infinity) /\
  exists mn mx,
    cpu_stridedMinMax buf_scalar 5 1 = Some (mn, mx) /\
    let W := List.filter not_nan (visited buf_scalar 5 1) in
    (W = [] -> (mn, mx) = sentinel) /\
    (W <> [] -> is_minimum W mn /\ is_maximum W mx) /\
    (infinity ∈ visited buf_scalar 5 1 -> mx = infinity) /\
    (neg_infinity ∈ visited buf_scalar 5 1 -> mn = neg_infinity).
Proof.
  assert (Hv : valid_view buf_scalar 5 1) by solve_view.
  split; [exact Hv | split; [reflexivity | ] ].
  exact (proj2 (proj2 (proj2 (proj2
           (cpu_stridedMinMax_skips_nan buf_scalar 5 1 Hv))))).
Defined.

(** C8.  Only the elements at offsets [0], [stride], ...,
    [(size-1)*stride] influence the result: two buffers that hold the same
    thing at those offsets, and anything at all elsewhere, give the same
    result of [scanArray] and of [unsafeScanArray] under every build flag
    and dispatch mode. *)
Theorem only_visited_offsets_matter (sse2 : bool) (mode : Z)
    (values values' : list float32) (size stride : N) :
  offsets_fit size stride ->
  agree_on values values' size stride ->
  scanArray sse2 mode values size stride =
    scanArray sse2 mode values' size stride /\
  unsafeScanArray sse2 mode values size stride =
    unsafeScanArray sse2 mode values' size stride.
Proof.
  intros Hfit Hagree. unfold scanArray, unsafeScanArray.
  destruct (dispatch sse2 mode size stride) eqn:Hd.
  - unfold cpu_stridedMinMaxSafe, cpu_stridedMinMax.
    now rewrite !(strided_agree values values' size stride Hfit Hagree).
  - unfold sse2_stridedMinMaxSafe, sse2_stridedMinMax.
    now rewrite !(strided_agree values values' size stride Hfit Hagree).
  - apply dispatch_Bulk in Hd as (_ & _ & _ & _ & -> & Hs).
    destruct Hfit as [Hsz _]. split.
    + now apply sse2_vectorMinMaxSafe_agree.
    + apply sse2_vectorMinMax_agree; [assumption | assumption | lia].
Qed.

Lemma only_visited_offsets_matter_witness :
  offsets_fit 3 2 /\ agree_on buf_gaps buf_gaps' 3 2 /\
  scanArray true 0 buf_gaps 3 2 = scanArray true 0 buf_gaps' 3 2 /\
  unsafeScanArray true 0 buf_gaps 3 2 = unsafeScanArray true 0 buf_gaps' 3 2.
Proof.
  assert (Hf : offsets_fit 3 2) by solve_view.
  assert (Ha : agree_on buf_gaps buf_gaps' 3 2).
  { intros i Hi.
    assert (Hc : i = 0%N \/ i = 1%N \/ i = 2%N) by lia.
    destruct Hc as [-> | [-> | ->]]; reflexivity. }
  split; [exact Hf | split; [exact Ha | ] ].
  exact (only_visited_offsets_matter true 0 buf_gaps buf_gaps' 3 2 Hf Ha).
Defined.

(** C9.  The dispatch of the two entry points selects the bulk vector
    path only when the vector code is compiled in, the override mode is
    none of 1, 2, 3, [stride == 1] and [size > 8].  Hence whenever the bulk
    path is entered its precondition [size >= 4] holds, the four offsets
    of its initial load are visited offsets, and on a valid view that load
    succeeds. *)
Theorem bulk_path_only_when_large (sse2 : bool) (mode : Z)
    (values : list float32) (size stride : N) :
  dispatch sse2 mode size stride = Bulk ->
  (sse2 = true /\ mode <> 1 /\ mode <> 2 /\ mode <> 3 /\
   stride = 1%N /\ (8 < size)%N) /\
  scanArray sse2 mode values size stride =
    sse2_vectorMinMaxSafe values size /\
  unsafeScanArray sse2 mode values size stride =
    sse2_vectorMinMax values size /\
  (4 <= size)%N /\
  (forall k, (k < 4)%N -> (k < size)%N /\ (k * stride)%N = k) /\
  (valid_view values size stride ->
   exists t, _mm_loadu_ps values 0 = Some t /\
             lane_list t = visited values 4 stride).
Proof.
  intros Hd. unfold scanArray, unsafeScanArray. rewrite Hd.
  apply dispatch_Bulk in Hd as (Hs & H1 & H2 & H3 & -> & Hsz).
  split; [repeat split; first [assumption | reflexivity] | ].
  do 2 (split; [reflexivity | ]).
  split; [lia | ]. split; [intros k Hk; lia | ].
  intros Hview. eexists. split.
  - apply (bulk_loadu values size Hview 0). lia.
  - symmetry. exact (bulk_visited_4 values 0).
Qed.

Lemma bulk_path_only_when_large_witness :
  dispatch true 0 9 1 = Bulk /\ valid_view buf_nine 9 1 /\
  (4 <= 9)%N /\
  scanArray true 0 buf_nine 9 1 = sse2_vectorMinMaxSafe buf_nine 9 /\
  unsafeScanArray true 0 buf_nine 9 1 = sse2_vectorMinMax buf_nine 9 /\
  exists t, _mm_loadu_ps buf_nine 0 = Some t /\
            lane_list t = visited buf_nine 4 1.
Proof.
  assert (Hv : valid_view buf_nine 9 1) by solve_view.
  destruct (bulk_path_only_when_large true 0 buf_nine 9 1 eq_refl)
    as (_ & Hsafe & Hunsafe & H4 & _ & Hload).
  split; [reflexivity | split; [exact Hv | split; [exact H4 | ] ] ].
  split; [exact Hsafe | split; [exact Hunsafe | exact (Hload Hv)] ].
Defined.

(** C10.  Neither component of the pair returned by [scanArray] is ever
    a NaN, for every valid view, build flag and dispatch mode: a candidate
    that is not finite never replaces an accumulator, and the accumulators
    start at +Infinity and -Infinity. *)
Theorem scanArray_never_nan (sse2 : bool) (mode : Z)
    (values : list float32) (size stride : N) :
  valid_view values size stride ->
  exists mn mx,
    scanArray sse2 mode values size stride = Some (mn, mx) /\
    is_nan mn = false /\ is_nan mx = false.
Proof.
  intros Hview.
  destruct (scanArray_acc sse2 mode values size stride Hview)
    as (mn & mx & Hr & (Nm & _) & (Nx & _)).
  exists mn, mx. auto.
Qed.

Lemma scanArray_never_nan_witness :
  valid_view buf_mostly_nan 10 1 /\
  exists mn mx,
    scanArray true 0 buf_mostly_nan 10 1 = Some (mn, mx) /\
    is_nan mn = false /\ is_nan mx = false.
Proof.
  assert (Hv : valid_view buf_mostly_nan 10 1) by solve_view.
  split; [exact Hv | ].
  exact (scanArray_never_nan true 0 buf_mostly_nan 10 1 Hv).
Defined.

(* ================================================================== *)
(** ** Further properties of the code *)

(** The preconditions of a call on one of the further sample buffers. *)
Ltac solve_view_more :=
  unfold buf_three, buf_four, buf_reset, buf_pair, buf_shuffled;
  solve_view.

Ltac solve_lanes :=
  cbv [lane_list reg_a reg_b lane0 lane1 lane2 lane3];
  repeat (apply List.Forall_cons;
          [first [reflexivity | unfold word32; cbv; split;
                                [discriminate | reflexivity] ] | ]);
  apply List.Forall_nil.

(** X1.  [has_sse2] is false exactly when the two entry points hand the
    call to the scalar functions: in that case [scanArray] is
    [cpu_stridedMinMaxSafe] and [unsafeScanArray] is [cpu_stridedMinMax],
    and otherwise neither entry point runs a scalar function. *)
Theorem has_sse2_reports_dispatch (sse2 : bool) (mode : Z)
    (values : list float32) (size stride : N) :
  (has_sse2 sse2 mode = false <-> dispatch sse2 mode size stride = Scalar) /\
  (has_sse2 sse2 mode = false ->
   scanArray sse2 mode values size stride =
     cpu_stridedMinMaxSafe values size stride /\
   unsafeScanArray sse2 mode values size stride =
     cpu_stridedMinMax values size stride).
Proof.
  assert (H : has_sse2 sse2 mode = false <->
              dispatch sse2 mode size stride = Scalar).
  { unfold has_sse2, dispatch. destruct sse2; [ | tauto].
    destruct (mode =? 2), (mode =? 3); cbn; try tauto.
    destruct (_ || _ || _); split; discriminate. }
  split; [exact H | ]. intros Hf. apply H in Hf.
  unfold scanArray, unsafeScanArray. now rewrite Hf.
Qed.

Lemma has_sse2_reports_dispatch_witness :
  has_sse2 true 3 = false /\
  scanArray true 3 buf_nine 9 1 = cpu_stridedMinMaxSafe buf_nine 9 1 /\
  unsafeScanArray true 3 buf_nine 9 1 = cpu_stridedMinMax buf_nine 9 1.
Proof.
  split; [reflexivity | ].
  exact (proj2 (has_sse2_reports_dispatch true 3 buf_nine 9 1) eq_refl).
Defined.



(** X3.  The horizontal reduction [sse2_reduceMinMax] of two registers
    whose lanes hold no NaN returns a lane of the first that is [<=] its
    four lanes and a lane of the second that is [>=] its four lanes. *)
Theorem sse2_reduceMinMax_extrema (a b : m128) :
  Forall (fun v => is_nan v = false) (lane_list a) ->
  Forall (fun v => is_nan v = false) (lane_list b) ->
  is_minimum (lane_list a) (sse2_reduceMinMax a b).1 /\
  is_maximum (lane_list b) (sse2_reduceMinMax a b).2.
Proof.
  intros Ha Hb. rewrite sse2_reduceMinMax_lanes.
  destruct a as [a0 a1 a2 a3], b as [b0 b1 b2 b3].
  unfold lane_list in *. cbn [lane0 lane1 lane2 lane3 fst snd] in *.
  apply Forall_cons in Ha as [A0 Ha]. apply Forall_cons in Ha as [A1 Ha].
  apply Forall_cons in Ha as [A2 Ha]. apply Forall_cons in Ha as [A3 _].
  apply Forall_cons in Hb as [B0 Hb]. apply Forall_cons in Hb as [B1 Hb].
  apply Forall_cons in Hb as [B2 Hb]. apply Forall_cons in Hb as [B3 _].
  split.
  - destruct (min_lane_spec a0 a3 A0 A3) as (N1 & K1 & E1).
    destruct (min_lane_spec a2 a1 A2 A1) as (N2 & K2 & E2).
    destruct (min_lane_spec _ _ N1 N2) as (N3 & K3 & E3).
    split.
    + rewrite !elem_of_cons.
      destruct E3 as [-> | ->];
        [destruct E1 as [-> | ->] | destruct E2 as [-> | ->] ]; tauto.
    + intros x Hx. rewrite !elem_of_cons, elem_of_nil in Hx.
      rewrite fle_key, N3, K3, K1, K2.
      destruct Hx as [-> | [-> | [-> | [-> | [] ] ] ] ];
        match goal with
        | H : is_nan ?y = false |- context [negb (is_nan ?y)] => rewrite H
        end; cbn; lia.
  - destruct (max_lane_spec b0 b3 B0 B3) as (N1 & K1 & E1).
    destruct (max_lane_spec b2 b1 B2 B1) as (N2 & K2 & E2).
    destruct (max_lane_spec _ _ N1 N2) as (N3 & K3 & E3).
    split.
    + rewrite !elem_of_cons.
      destruct E3 as [-> | ->];
        [destruct E1 as [-> | ->] | destruct E2 as [-> | ->] ]; tauto.
    + intros x Hx. rewrite !elem_of_cons, elem_of_nil in Hx.
      rewrite fle_key, N3, K3, K1, K2.
      destruct Hx as [-> | [-> | [-> | [-> | [] ] ] ] ];
        match goal with
        | H : is_nan ?y = false |- context [negb (is_nan ?y)] => rewrite H
        end; cbn; lia.
Qed.

Lemma sse2_reduceMinMax_extrema_witness :
  Forall (fun v => is_nan v = false) (lane_list reg_a) /\
  sse2_reduceMinMax reg_a reg_a = (one, nine) /\
  is_minimum (lane_list reg_a) (sse2_reduceMinMax reg_a reg_a).1 /\
  is_maximum (lane_list reg_a) (sse2_reduceMinMax reg_a reg_a).2.
Proof.
  assert (Ha : Forall (fun v => is_nan v = false) (lane_list reg_a))
    by solve_lanes.
  split; [exact Ha | split; [reflexivity | ] ].
  exact (sse2_reduceMinMax_extrema reg_a reg_a Ha Ha).
Defined.

(** X4.  The vector validity test of the NaN-safe loops (ordered, and
    different from +Infinity and from -Infinity) accepts in each lane
    exactly the values the scalar [cpu_isFinite] accepts: the lane of the
    mask is all ones when [cpu_isFinite] holds of the lane of the operand
    and zero otherwise. *)
Theorem isValid_mask_is_cpu_isFinite (temp : m128) :
  isValid_mask temp =
  mk128 (if cpu_isFinite (lane0 temp) then all_ones else 0)
        (if cpu_isFinite (lane1 temp) then all_ones else 0)
        (if cpu_isFinite (lane2 temp) then all_ones else 0)
        (if cpu_isFinite (lane3 temp) then all_ones else 0).
Proof.
  rewrite !cpu_isFinite_is_finite, <- !valid_lane_spec. reflexivity.
Qed.

(** X5.  On registers of 32-bit lanes the select-by-bitmask of the
    NaN-safe loops, [(isValid & temp) | (~isValid & running)], takes in
    each lane the candidate when it is finite and the running value
    otherwise. *)
Theorem masked_selects_finite (temp running : m128) :
  Forall word32 (lane_list temp) -> Forall word32 (lane_list running) ->
  masked (isValid_mask temp) temp running =
  mk128 (if cpu_isFinite (lane0 temp) then lane0 temp else lane0 running)
        (if cpu_isFinite (lane1 temp) then lane1 temp else lane1 running)
        (if cpu_isFinite (lane2 temp) then lane2 temp else lane2 running)
        (if cpu_isFinite (lane3 temp) then lane3 temp else lane3 running).
Proof.
  intros Ht Hr. rewrite masked_lanes, !cpu_isFinite_is_finite.
  unfold lane_list in *.
  apply Forall_cons in Ht as [T0 Ht]. apply Forall_cons in Ht as [T1 Ht].
  apply Forall_cons in Ht as [T2 Ht]. apply Forall_cons in Ht as [T3 _].
  apply Forall_cons in Hr as [R0 Hr]. apply Forall_cons in Hr as [R1 Hr].
  apply Forall_cons in Hr as [R2 Hr]. apply Forall_cons in Hr as [R3 _].
  now rewrite !masked_lane_spec.
Qed.

Lemma masked_selects_finite_witness :
  Forall word32 (lane_list reg_b) /\ Forall word32 (lane_list reg_a) /\
  masked (isValid_mask reg_b) reg_b reg_a = mk128 five one one neg_zero.
Proof.
  assert (Hb : Forall word32 (lane_list reg_b)) by solve_lanes.
  assert (Ha : Forall word32 (lane_list reg_a)) by solve_lanes.
  split; [exact Hb | split; [exact Ha | ] ].
  rewrite (masked_selects_finite reg_b reg_a Hb Ha). reflexivity.
Defined.

(** X6.  On a non-empty valid view without a NaN among the visited
    elements, [unsafeScanArray] returns, under every build flag and
    dispatch mode, a visited element that is [<=] every visited element
    and one that is [>=] every visited element; visited infinities take
    part like any other value. *)
Theorem unsafeScanArray_extrema (sse2 : bool) (mode : Z)
    (values : list float32) (size stride : N) :
  valid_view values size stride -> (0 < size)%N ->
  Forall (fun v => is_nan v = false) (visited values size stride) ->
  exists mn mx,
    unsafeScanArray sse2 mode values size stride = Some (mn, mx) /\
    is_minimum (visited values size stride) mn /\
    is_maximum (visited values size stride) mx.
Proof.
  intros Hview Hpos Hnan.
  destruct (unsafeScanArray_acc sse2 mode values size stride Hview Hnan)
    as (mn & mx & Hr & Hm & Hx).
  pose proof (view_word32 values size stride Hview) as Hw.
  assert (Hne : visited values size stride <> []).
  { intros He. apply (f_equal length) in He.
    rewrite visited_length in He. cbn in He. lia. }
  exists mn, mx. split; [exact Hr | ].
  split; [now apply acc_min_is_minimum | now apply acc_max_is_maximum].
Qed.

Lemma unsafeScanArray_extrema_witness :
  valid_view buf_no_nan 10 1 /\ (0 < 10)%N /\
  Forall (fun v => is_nan v = false) (visited buf_no_nan 10 1) /\
  unsafeScanArray true 0 buf_no_nan 10 1 = Some (neg_infinity, infinity) /\
  exists mn mx,
    unsafeScanArray true 0 buf_no_nan 10 1 = Some (mn, mx) /\
    is_minimum (visited buf_no_nan 10 1) mn /\
    is_maximum (visited buf_no_nan 10 1) mx.
Proof.
  assert (Hv : valid_view buf_no_nan 10 1) by solve_view.
  assert (Hn : Forall (fun v => is_nan v = false) (visited buf_no_nan 10 1))
    by solve_visited.
  split; [exact Hv | split; [reflexivity | split; [exact Hn | ] ] ].
  split; [vm_compute; reflexivity | ].
  exact (unsafeScanArray_extrema true 0 buf_no_nan 10 1 Hv eq_refl Hn).
Defined.

Lemma sse2_iter_nan a b v :
  is_nan v = true ->
  lane0 (sse2_stridedMinMax_iter v (a, b)).1 = v /\
  lane0 (sse2_stridedMinMax_iter v (a, b)).2 = v.
Proof.
  intros Hv. cbn. unfold min_lane, max_lane.
  rewrite flt_key, fgt_key, Hv, !andb_false_r. auto.
Qed.

Lemma sse2_iter_after_nan a b x :
  is_nan (lane0 a) = true -> is_nan (lane0 b) = true ->
  lane0 (sse2_stridedMinMax_iter x (a, b)).1 = x /\
  lane0 (sse2_stridedMinMax_iter x (a, b)).2 = x.
Proof.
  intros Ha Hb. cbn. unfold min_lane, max_lane.
  rewrite flt_key, fgt_key, Ha, Hb. auto.
Qed.

(** X7.  The strided vector loop [sse2_stridedMinMax] forgets everything
    it has seen when it meets a NaN (MINSS / MAXSS return their second
    operand, the candidate): if the visited elements are [l], a NaN [v] and
    then [l'] without NaN, the result is ([v], [v]) when [l'] is empty and
    the minimum and maximum of [l'] alone otherwise. *)
Theorem sse2_stridedMinMax_nan_resets (values : list float32)
    (size stride : N) (l l' : list float32) (v : float32) :
  valid_view values size stride ->
  visited values size stride = l ++ v :: l' ->
  is_nan v = true -> Forall (fun x => is_nan x = false) l' ->
  exists mn mx,
    sse2_stridedMinMax values size stride = Some (mn, mx) /\
    (l' = [] -> (mn, mx) = (v, v)) /\
    (l' <> [] -> is_minimum l' mn /\ is_maximum l' mx).
Proof.
  intros Hview HV Hv Hl'.
  pose proof (view_word32 values size stride Hview) as Hw.
  rewrite HV in Hw. apply Forall_app in Hw as [_ Hw].
  apply Forall_cons in Hw as [_ Hw].
  unfold sse2_stridedMinMax.
  destruct (strided_fold values size stride Hview sse2_stridedMinMax_iter
              (_mm_set_ss infinity, _mm_set_ss neg_infinity)) as [index ->].
  cbn [mbind option_bind snd]. rewrite HV, fold_left_app.
  destruct (fold_left _ l _) as [a b]. cbn [fold_left].
  destruct (sse2_iter_nan a b v Hv) as [Ea Eb].
  destruct (sse2_stridedMinMax_iter v (a, b)) as [a1 b1].
  cbn [fst snd] in Ea, Eb.
  destruct l' as [ | x l''].
  - cbn [fold_left]. eexists _, _. split; [reflexivity | ]. split.
    + intros _. unfold _mm_store_ss. now rewrite Ea, Eb.
    + congruence.
  - cbn [fold_left].
    apply Forall_cons in Hl' as [Hx Hl'']. apply Forall_cons in Hw as [Wx Hw].
    destruct (sse2_iter_after_nan a1 b1 x) as [Ea2 Eb2];
      [now rewrite Ea | now rewrite Eb | ].
    destruct (sse2_stridedMinMax_iter x (a1, b1)) as [a2 b2].
    cbn [fst snd] in Ea2, Eb2.
    assert (Hinv : acc_min (x :: l'')
                     (lane0 (fold_left (fun s v => sse2_stridedMinMax_iter v s)
                               l'' (a2, b2)).1) /\
                   acc_max (x :: l'')
                     (lane0 (fold_left (fun s v => sse2_stridedMinMax_iter v s)
                               l'' (a2, b2)).2)).
    { apply (fold_left_inv (fun v => is_nan v = false)
               (fun l s => acc_min (x :: l) (lane0 s.1) /\
                           acc_max (x :: l) (lane0 s.2)));
        [exact Hl'' | | ].
      - cbn [fst snd]. rewrite Ea2, Eb2.
        split; [now apply acc_min_single | now apply acc_max_single].
      - intros l0 [m0 x0] v0 _ Hv0 [Hm0 Hx0].
        rewrite app_comm_cons. now apply sse2_iter_acc. }
    destruct (fold_left _ l'' (a2, b2)) as [a3 b3].
    cbn [fst snd] in Hinv. destruct Hinv as [Hm Hx'].
    eexists _, _. split; [reflexivity | ]. split; [discriminate | ].
    intros _.
    assert (Hn : Forall (fun v => is_nan v = false) (x :: l''))
      by (apply List.Forall_cons; assumption).
    assert (Hww : Forall word32 (x :: l''))
      by (apply List.Forall_cons; assumption).
    split; [apply acc_min_is_minimum | apply acc_max_is_maximum];
      auto; discriminate.
Qed.

Lemma sse2_stridedMinMax_nan_resets_witness :
  valid_view buf_reset 4 1 /\
  visited buf_reset 4 1 = [one] ++ quiet_nan :: [five; two] /\
  is_nan quiet_nan = true /\
  Forall (fun x => is_nan x = false) [five; two] /\
  sse2_stridedMinMax buf_reset 4 1 = Some (two, five) /\
  exists mn mx,
    sse2_stridedMinMax buf_reset 4 1 = Some (mn, mx) /\
    ([five; two] = [] -> (mn, mx) = (quiet_nan, quiet_nan)) /\
    ([five; two] <> [] ->
     is_minimum [five; two] mn /\ is_maximum [five; two] mx).
Proof.
  assert (Hv : valid_view buf_reset 4 1) by solve_view_more.
  assert (Hn : Forall (fun x => is_nan x = false) [five; two])
    by (repeat (apply List.Forall_cons; [reflexivity | ]);
        apply List.Forall_nil).
  split; [exact Hv | split; [reflexivity | split; [reflexivity | ] ] ].
  split; [exact Hn | split; [vm_compute; reflexivity | ] ].
  exact (sse2_stridedMinMax_nan_resets buf_reset 4 1 [one] [five; two]
           quiet_nan Hv eq_refl eq_refl Hn).
Defined.

(** X8.  The NaN-safe bulk function [sse2_vectorMinMaxSafe] is correct on
    a contiguous valid view of every size, also below the four elements
    its comment asks for and below the nine the dispatch sends it: it
    returns the minimum and the maximum of the finite elements, and the
    sentinel pair when there is none. *)
Theorem sse2_vectorMinMaxSafe_any_size (values : list float32) (size : N) :
  valid_view values size 1 ->
  exists mn mx,
    sse2_vectorMinMaxSafe values size = Some (mn, mx) /\
    let F := List.filter is_finite (visited values size 1) in
    (F <> [] -> is_minimum F mn /\ is_maximum F mx) /\
    (F = [] -> (mn, mx) = sentinel).
Proof.
  intros Hview.
  destruct (sse2_vectorMinMaxSafe_acc values size Hview)
    as (mn & mx & Hr & Hm & Hx).
  exists mn, mx. split; [exact Hr | ]. cbn zeta. split.
  - intros Hne.
    pose proof (Forall_list_filter word32 is_finite _
                  (view_word32 values size 1 Hview)) as Hw.
    pose proof (finite_list_not_nan (visited values size 1)) as Hn.
    split; [now apply acc_min_is_minimum | now apply acc_max_is_maximum].
  - intros He. rewrite He in Hm, Hx.
    apply acc_min_nil_inv in Hm. apply acc_max_nil_inv in Hx. now subst.
Qed.

Lemma sse2_vectorMinMaxSafe_any_size_witness :
  valid_view buf_three 3 1 /\
  sse2_vectorMinMaxSafe buf_three 3 = Some (one, three) /\
  exists mn mx,
    sse2_vectorMinMaxSafe buf_three 3 = Some (mn, mx) /\
    let F := List.filter is_finite (visited buf_three 3 1) in
    (F <> [] -> is_minimum F mn /\ is_maximum F mx) /\
    (F = [] -> (mn, mx) = sentinel).
Proof.
  assert (Hv : valid_view buf_three 3 1) by solve_view_more.
  split; [exact Hv | split; [vm_compute; reflexivity | ] ].
  exact (sse2_vectorMinMaxSafe_any_size buf_three 3 Hv).
Defined.

Lemma for_range_done {A : Type} (body : N -> A -> option A) fuel
    (i bound step : N) (acc : A) :
  (bound <= i)%N -> for_range body fuel i bound step acc = Some acc.
Proof.
  intros Hge. destruct fuel; cbn;
    (destruct (N.ltb_spec i bound); [lia | reflexivity]).
Qed.

Lemma is_minimum_subsumed l l' m :
  (forall x, x ∈ l' -> x ∈ l) -> is_minimum (l ++ l') m -> is_minimum l m.
Proof.
  intros Hsub [Hin Hle]. split.
  - apply elem_of_app in Hin as [Hin | Hin]; auto.
  - intros x Hx. apply Hle, elem_of_app. now left.
Qed.

Lemma is_maximum_subsumed l l' m :
  (forall x, x ∈ l' -> x ∈ l) -> is_maximum (l ++ l') m -> is_maximum l m.
Proof.
  intros Hsub [Hin Hle]. split.
  - apply elem_of_app in Hin as [Hin | Hin]; auto.
  - intros x Hx. apply Hle, elem_of_app. now left.
Qed.

(** X9.  The unsafe bulk function [sse2_vectorMinMax] loads the first
    four elements whatever [size] is (hence its comment "size must be at
    least 4"): called with [size < 4] on a buffer that holds four NaN-free
    floats it returns the minimum and the maximum of those four elements,
    not of the first [size]. *)
Theorem sse2_vectorMinMax_reads_four (values : list float32) (size : N) :
  (size < 4)%N -> valid_view values 4 1 ->
  Forall (fun v => is_nan v = false) (visited values 4 1) ->
  exists mn mx,
    sse2_vectorMinMax values size = Some (mn, mx) /\
    is_minimum (visited values 4 1) mn /\
    is_maximum (visited values 4 1) mx.
Proof.
  intros Hs Hview Hnan.
  pose proof (view_word32 values 4 1 Hview) as Hw.
  assert (E4 : visited values 4 1 = lane_list (chunk values 0))
    by exact (bulk_visited_4 values 0).
  unfold sse2_vectorMinMax.
  rewrite (N.div_small size 4 Hs). change (wrap (0 * 4)) with 0%N.
  rewrite (bulk_loadu values 4 Hview 0) by lia. cbn [mbind option_bind].
  rewrite for_range_done by lia. cbn [mbind option_bind].
  destruct (for_range_inv size 1
    (single_body sse2_stridedMinMax_iter values)
    (fun i st => (i <= size)%N /\
       exists l, (forall x, x ∈ l -> x ∈ visited values 4 1) /\
                 lanes_min (visited values 4 1 ++ l) st.1 /\
                 lanes_max (visited values 4 1 ++ l) st.2))
    with (fuel := N.to_nat size) (i := 0%N)
         (acc := (chunk values 0, chunk values 0))
    as (j & [a b] & -> & (_ & l & Hsub & Ha & Hb) & _).
  - lia.
  - intros i [c d] (Hi & l & Hsub & Hc & Hd) Hlt. cbn [fst snd] in Hc, Hd.
    split; [unfold SIZE_MOD; lia | ].
    unfold single_body. rewrite (bulk_load values 4 Hview i) by lia.
    eexists. split; [reflexivity | ].
    cbn [sse2_stridedMinMax_iter fst snd]. split; [lia | ].
    exists (l ++ [elt values i]).
    assert (Hin : elt values i ∈ visited values 4 1).
    { apply elem_of_visited. exists i. split; [lia | ].
      now rewrite N.mul_1_r. }
    assert (Hni : is_nan (elt values i) = false).
    { rewrite Forall_forall in Hnan. now apply Hnan. }
    split; [ | rewrite !app_assoc; split;
               [now apply lanes_min_single | now apply lanes_max_single] ].
    intros x Hx. apply elem_of_app in Hx as [Hx | Hx]; [now apply Hsub | ].
    apply list_elem_of_singleton in Hx. now subst.
  - cbn [fst snd]. split; [lia | ]. exists []. rewrite app_nil_r, E4.
    rewrite E4 in Hnan.
    split; [intros x Hx; now apply elem_of_nil in Hx | ].
    split; [now apply lanes_min_first4 | now apply lanes_max_first4].
  - lia.
  - cbn [fst snd] in Ha, Hb. cbn [mbind option_bind].
    rewrite sse2_reduceMinMax_lanes.
    eexists _, _. split; [reflexivity | ].
    apply lanes_min_reduce in Ha. apply lanes_max_reduce in Hb.
    assert (Hww : Forall word32 (visited values 4 1 ++ l)).
    { apply Forall_app. split; [exact Hw | ].
      rewrite Forall_forall in *. auto. }
    assert (Hnn : Forall (fun v => is_nan v = false)
                    (visited values 4 1 ++ l)).
    { apply Forall_app. split; [exact Hnan | ].
      rewrite Forall_forall in *. auto. }
    assert (Hne : visited values 4 1 ++ l <> []).
    { rewrite E4. discriminate. }
    split.
    + apply (is_minimum_subsumed _ l); [exact Hsub | ].
      now apply acc_min_is_minimum.
    + apply (is_maximum_subsumed _ l); [exact Hsub | ].
      now apply acc_max_is_maximum.
Qed.

Lemma sse2_vectorMinMax_reads_four_witness :
  (2 < 4)%N /\ valid_view buf_four 4 1 /\
  Forall (fun v => is_nan v = false) (visited buf_four 4 1) /\
  visited buf_four 2 1 = [five; two] /\
  sse2_vectorMinMax buf_four 2 = Some (one, nine) /\
  exists mn mx,
    sse2_vectorMinMax buf_four 2 = Some (mn, mx) /\
    is_minimum (visited buf_four 4 1) mn /\
    is_maximum (visited buf_four 4 1) mx.
Proof.
  assert (Hv : valid_view buf_four 4 1) by solve_view_more.
  assert (Hn : Forall (fun v => is_nan v = false) (visited buf_four 4 1))
    by (unfold buf_four; solve_visited).
  split; [reflexivity | split; [exact Hv | split; [exact Hn | ] ] ].
  split; [reflexivity | split; [vm_compute; reflexivity | ] ].
  exact (sse2_vectorMinMax_reads_four buf_four 2 eq_refl Hv Hn).
Defined.



Lemma nth_drop_shift (l : list float32) (n i : nat) :
  nth i (drop n l) 0 = nth (n + i) l 0.
Proof. now rewrite !nth_lookup, lookup_drop. Qed.

Lemma visited_app values a b stride :
  visited values (a + b) stride =
  visited values a stride ++
  visited (drop (N.to_nat (a * stride)) values) b stride.
Proof.
  unfold visited.
  replace (N.to_nat (a + b)) with (N.to_nat a + N.to_nat b)%nat by lia.
  rewrite seq_app, map_app. f_equal. cbn [Nat.add].
  rewrite <- (Nat.add_0_r (N.to_nat a)) at 1.
  generalize 0%nat as k. induction (N.to_nat b) as [ | n IH]; intros k.
  - reflexivity.
  - cbn [seq map]. f_equal; [ | rewrite <- IH; f_equal; f_equal; lia].
    rewrite nth_drop_shift. f_equal. lia.
Qed.

Lemma view_suffix values a b stride :
  valid_view values (a + b) stride ->
  valid_view (drop (N.to_nat (a * stride)) values) b stride.
Proof.
  intros (Hs & Hst & Hw & Hlen & Hcov). unfold valid_view.
  rewrite length_drop.
  split; [lia | split; [exact Hst | split; [now apply Forall_drop | ] ] ].
  split; [lia | ]. intros Hb. specialize (Hcov ltac:(lia)).
  replace (a + b - 1)%N with (a + (b - 1))%N in Hcov by lia.
  rewrite N.mul_add_distr_r in Hcov. lia.
Qed.

(** X11.  Scanning a view in two consecutive pieces and combining the two
    results with one comparison each ([<] for the minima, [>] for the
    maxima) gives the same pair of numbers as scanning it at once: for a
    valid view of [a + b] elements, the result over the whole is the same
    value as the combination of the result over the first [a] elements and
    the result over the [b] elements that start at offset [a * stride]. *)
Theorem scanArray_of_two_pieces (sse2 : bool) (mode : Z)
    (values : list float32) (a b stride : N) :
  valid_view values (a + b) stride ->
  exists r1 r2 r,
    scanArray sse2 mode values a stride = Some r1 /\
    scanArray sse2 mode (drop (N.to_nat (a * stride)) values) b stride
      = Some r2 /\
    scanArray sse2 mode values (a + b) stride = Some r /\
    same_value r (min_lane r1.1 r2.1, max_lane r1.2 r2.2).
Proof.
  intros Hview.
  assert (Hv1 : valid_view values a stride)
    by (apply (view_prefix values (a + b) stride Hview); lia).
  pose proof (view_suffix values a b stride Hview) as Hv2.
  destruct (scanArray_acc sse2 mode _ _ _ Hv1) as (m1 & x1 & R1 & M1 & X1).
  destruct (scanArray_acc sse2 mode _ _ _ Hv2) as (m2 & x2 & R2 & M2 & X2).
  destruct (scanArray_acc sse2 mode _ _ _ Hview) as (m & x & R & M & X).
  exists (m1, x1), (m2, x2), (m, x).
  split; [exact R1 | split; [exact R2 | split; [exact R | ] ] ].
  pose proof (Forall_list_filter word32 is_finite _
                (view_word32 _ _ _ Hview)) as Hw.
  rewrite visited_app, List.filter_app in M, X, Hw. cbn [fst snd].
  apply (acc_same_value _ m x _ _ Hw M X).
  - apply (acc_min_join _ _ _ _ M1 M2).
  - apply (acc_max_join _ _ _ _ X1 X2).
Qed.

Lemma scanArray_of_two_pieces_witness :
  valid_view buf_mostly_nan (4 + 6) 1 /\
  scanArray true 0 buf_mostly_nan 4 1 = Some (one, one) /\
  scanArray true 0 (drop 4 buf_mostly_nan) 6 1 = Some (two, two) /\
  scanArray true 0 buf_mostly_nan 10 1 = Some (one, two) /\
  exists r1 r2 r,
    scanArray true 0 buf_mostly_nan 4 1 = Some r1 /\
    scanArray true 0 (drop (N.to_nat (4 * 1)) buf_mostly_nan) 6 1
      = Some r2 /\
    scanArray true 0 buf_mostly_nan (4 + 6) 1 = Some r /\
    same_value r (min_lane r1.1 r2.1, max_lane r1.2 r2.2).
Proof.
  assert (Hv : valid_view buf_mostly_nan (4 + 6) 1) by solve_view.
  split; [exact Hv | ].
  do 3 (split; [vm_compute; reflexivity | ]).
  exact (scanArray_of_two_pieces true 0 buf_mostly_nan 4 6 1 Hv).
Defined.

(** X12.  With [stride == 0] every visit reads element 0 again: on a
    valid non-empty view [scanArray] returns that element twice when it is
    finite and the sentinel pair when it is not, under every build flag
    and dispatch mode. *)
Theorem scanArray_stride_zero (sse2 : bool) (mode : Z)
    (values : list float32) (size : N) :
  valid_view values size 0 -> (0 < size)%N ->
  scanArray sse2 mode values size 0 =
  Some (if cpu_isFinite (elt values 0)
        then (elt values 0, elt values 0) else sentinel).
Proof.
  intros Hview Hpos.
  destruct (scanArray_acc sse2 mode values size 0 Hview)
    as (mn & mx & -> & Hm & Hx).
  assert (Hall : forall x, x ∈ List.filter is_finite (visited values size 0)
                   -> x = elt values 0 /\ is_finite x = true).
  { intros x Hin. apply list_elem_of_In, filter_In in Hin as [Hin Hf].
    apply list_elem_of_In, elem_of_visited in Hin as (i & _ & ->).
    rewrite N.mul_0_r in *. auto. }
  assert (H0 : elt values 0 ∈ visited values size 0).
  { apply elem_of_visited. exists 0%N. split; [lia | reflexivity]. }
  pose proof (Forall_list_filter word32 is_finite _
                (view_word32 values size 0 Hview)) as Hw.
  pose proof (finite_list_not_nan (visited values size 0)) as Hn.
  rewrite cpu_isFinite_is_finite. f_equal.
  destruct (List.filter is_finite (visited values size 0)) as [ | y F] eqn:EF.
  - apply acc_min_nil_inv in Hm. apply acc_max_nil_inv in Hx. subst.
    destruct (is_finite (elt values 0)) eqn:Ef; [ | reflexivity].
    assert (Hc : elt values 0 ∈ List.filter is_finite (visited values size 0)).
    { apply list_elem_of_In, filter_In.
      split; [now apply list_elem_of_In | exact Ef]. }
    rewrite EF in Hc. now apply elem_of_nil in Hc.
  - destruct (acc_min_is_minimum _ _ Hw Hn ltac:(discriminate) Hm) as [Im _].
    destruct (acc_max_is_maximum _ _ Hw Hn ltac:(discriminate) Hx) as [Ix _].
    destruct (Hall y (list_elem_of_here _ _)) as [Ey Fy].
    destruct (Hall mn Im) as [-> _]. destruct (Hall mx Ix) as [-> _].
    subst y. now rewrite Fy.
Qed.

Lemma scanArray_stride_zero_witness :
  valid_view buf_three 5 0 /\ (0 < 5)%N /\
  scanArray true 0 buf_three 5 0 = Some (three, three).
Proof.
  assert (Hv : valid_view buf_three 5 0) by solve_view_more.
  split; [exact Hv | split; [reflexivity | ] ].
  rewrite (scanArray_stride_zero true 0 buf_three 5 Hv eq_refl). reflexivity.
Defined.

Lemma min_key_filter_perm (f : float32 -> bool) l l' :
  Permutation l l' ->
  min_key (List.filter f l) = min_key (List.filter f l').
Proof.
  unfold min_key. induction 1 as [ | x l l' _ IH | x y l | l l' l'' _ IH1 _ IH2].
  - reflexivity.
  - cbn [List.filter]. destruct (f x); cbn [map fold_right]; now rewrite IH.
  - cbn [List.filter]. destruct (f x), (f y); cbn [map fold_right]; lia.
  - now rewrite IH1.
Qed.

Lemma max_key_filter_perm (f : float32 -> bool) l l' :
  Permutation l l' ->
  max_key (List.filter f l) = max_key (List.filter f l').
Proof.
  unfold max_key. induction 1 as [ | x l l' _ IH | x y l | l l' l'' _ IH1 _ IH2].
  - reflexivity.
  - cbn [List.filter]. destruct (f x); cbn [map fold_right]; now rewrite IH.
  - cbn [List.filter]. destruct (f x), (f y); cbn [map fold_right]; lia.
  - now rewrite IH1.
Qed.

(** X13.  The result of [scanArray] depends only on which elements are
    visited, not on the order in which they are laid out: two valid views
    (of the same or of different buffers, scanned under the same or
    different modes) whose visited elements are a permutation of each
    other give the same pair of numbers. *)
Theorem scanArray_order_irrelevant (sse2 sse2' : bool) (mode mode' : Z)
    (values values' : list float32) (size size' stride stride' : N) :
  valid_view values size stride -> valid_view values' size' stride' ->
  Permutation (visited values size stride) (visited values' size' stride') ->
  exists r r',
    scanArray sse2 mode values size stride = Some r /\
    scanArray sse2' mode' values' size' stride' = Some r' /\
    same_value r r'.
Proof.
  intros Hv Hv' Hperm.
  destruct (scanArray_acc sse2 mode _ _ _ Hv)
    as (m & x & R & (Nm & Km & Em) & (Nx & Kx & Ex)).
  destruct (scanArray_acc sse2' mode' _ _ _ Hv')
    as (m' & x' & R' & (Nm' & Km' & Em') & (Nx' & Kx' & Ex')).
  pose proof (Forall_list_filter word32 is_finite _
                (view_word32 _ _ _ Hv)) as Hw.
  pose proof (Forall_list_filter word32 is_finite _
                (view_word32 _ _ _ Hv')) as Hw'.
  exists (m, x), (m', x'). split; [exact R | split; [exact R' | ] ].
  split; cbn [fst snd]; apply same_number_key; try assumption.
  - exact (word32_seeded _ _ _ word32_infinity Hw Em).
  - exact (word32_seeded _ _ _ word32_infinity Hw' Em').
  - rewrite Km, Km'. now apply min_key_filter_perm.
  - exact (word32_seeded _ _ _ word32_neg_infinity Hw Ex).
  - exact (word32_seeded _ _ _ word32_neg_infinity Hw' Ex').
  - rewrite Kx, Kx'. now apply max_key_filter_perm.
Qed.

Lemma scanArray_order_irrelevant_witness :
  valid_view buf_pair 5 1 /\ valid_view buf_shuffled 5 1 /\
  Permutation (visited buf_pair 5 1) (visited buf_shuffled 5 1) /\
  exists r r',
    scanArray true 2 buf_pair 5 1 = Some r /\
    scanArray true 1 buf_shuffled 5 1 = Some r' /\
    same_value r r'.
Proof.
  assert (Hv : valid_view buf_pair 5 1) by solve_view_more.
  assert (Hv' : valid_view buf_shuffled 5 1) by solve_view_more.
  assert (Hp : Permutation (visited buf_pair 5 1) (visited buf_shuffled 5 1)).
  { change (Permutation [nine; neg_infinity; one; two; five]
                        [five; two; one; neg_infinity; nine]).
    apply (Permutation_rev [nine; neg_infinity; one; two; five]). }
  split; [exact Hv | split; [exact Hv' | split; [exact Hp | ] ] ].
  exact (scanArray_order_irrelevant true true 2 1 buf_pair buf_shuffled
           5 5 1 1 Hv Hv' Hp).
Defined.

Lemma sign_bit_fneg v : sign_bit (fneg v) = negb (sign_bit v).
Proof.
  unfold sign_bit, fneg. rewrite Z.lxor_spec.
  change (Z.testbit 0x80000000 31) with true. apply xorb_true_r.
Qed.

Lemma magnitude_fneg v : magnitude (fneg v) = magnitude v.
Proof.
  unfold magnitude, fneg. apply Z.bits_inj'. intros n Hn.
  rewrite !Z.land_spec, Z.lxor_spec.
  change 0x80000000 with (2 ^ 31). change 0x7FFFFFFF with (Z.ones 31).
  rewrite Z.pow2_bits_eqb by lia.
  destruct (Z.ltb_spec n 31).
  - destruct (Z.eqb_spec 31 n); [lia | ]. now rewrite xorb_false_r.
  - rewrite Z.ones_spec_high by lia. now rewrite !andb_false_r.
Qed.

Lemma key_fneg v : key (fneg v) = - key v.
Proof.
  unfold key. rewrite sign_bit_fneg, magnitude_fneg.
  destruct (sign_bit v); cbn; lia.
Qed.

Lemma is_nan_fneg v : is_nan (fneg v) = is_nan v.
Proof. now rewrite !is_nan_magnitude, magnitude_fneg. Qed.

Lemma is_finite_fneg v : is_finite (fneg v) = is_finite v.
Proof. now rewrite !is_finite_magnitude, magnitude_fneg. Qed.

Lemma word32_fneg v : word32 v -> word32 (fneg v).
Proof.
  unfold word32, fneg. intros [H0 H1].
  assert (Hnn : 0 <= Z.lxor v 0x80000000) by (apply Z.lxor_nonneg; lia).
  split; [exact Hnn | ].
  destruct (Z.eq_dec (Z.lxor v 0x80000000) 0) as [-> | Hne]; [lia | ].
  apply Z.log2_lt_pow2; [lia | ].
  pose proof (Z.log2_lxor v 0x80000000 H0 ltac:(lia)) as Hl.
  change (Z.log2 0x80000000) with 31 in Hl.
  destruct (Z.eq_dec v 0) as [-> | Hv]; [cbn in *; lia | ].
  assert (Z.log2 v < 32) by (apply Z.log2_lt_pow2; lia). lia.
Qed.

Lemma filter_finite_fneg l :
  List.filter is_finite (map fneg l) = map fneg (List.filter is_finite l).
Proof.
  induction l as [ | v l IH]; [reflexivity | ].
  cbn [map List.filter]. rewrite is_finite_fneg, IH.
  now destruct (is_finite v).
Qed.

Lemma min_key_fneg l : min_key (map fneg l) = - max_key l.
Proof.
  unfold min_key, max_key. rewrite key_infinity, key_neg_infinity.
  induction l as [ | v l IH]; [reflexivity | ].
  cbn [map fold_right]. rewrite IH, key_fneg. lia.
Qed.

Lemma max_key_fneg l : max_key (map fneg l) = - min_key l.
Proof.
  unfold min_key, max_key. rewrite key_infinity, key_neg_infinity.
  induction l as [ | v l IH]; [reflexivity | ].
  cbn [map fold_right]. rewrite IH, key_fneg. lia.
Qed.

Lemma visited_fneg values size stride :
  valid_view values size stride ->
  visited (map fneg values) size stride =
  map fneg (visited values size stride).
Proof.
  intros Hview. unfold visited. rewrite map_map. apply map_ext_in.
  intros i Hi. apply in_seq in Hi.
  destruct (view_offset values size stride Hview (N.of_nat i) ltac:(lia))
    as [Hlt _].
  rewrite (nth_indep _ 0 (fneg 0)) by (rewrite length_map; lia).
  apply map_nth.
Qed.

Lemma view_fneg values size stride :
  valid_view values size stride -> valid_view (map fneg values) size stride.
Proof.
  intros (Hs & Hst & Hw & Hlen & Hcov). unfold valid_view.
  rewrite length_map. repeat split; try assumption.
  rewrite Forall_forall in *. intros x Hx.
  apply list_elem_of_In, in_map_iff in Hx as (y & <- & Hy).
  apply word32_fneg, Hw. now apply list_elem_of_In.
Qed.

(** X14.  Minimum and maximum are treated symmetrically: scanning the
    buffer with every element negated (sign bit flipped) gives the negated
    maximum as the minimum and the negated minimum as the maximum, as
    numbers, under every build flag and dispatch mode. *)
Theorem scanArray_of_negated (sse2 sse2' : bool) (mode mode' : Z)
    (values : list float32) (size stride : N) :
  valid_view values size stride ->
  exists mn mx r',
    scanArray sse2 mode values size stride = Some (mn, mx) /\
    scanArray sse2' mode' (map fneg values) size stride = Some r' /\
    same_value r' (fneg mx, fneg mn).
Proof.
  intros Hview. pose proof (view_fneg values size stride Hview) as Hview'.
  destruct (scanArray_acc sse2 mode _ _ _ Hview)
    as (m & x & R & (Nm & Km & Em) & (Nx & Kx & Ex)).
  destruct (scanArray_acc sse2' mode' _ _ _ Hview')
    as (m' & x' & R' & (Nm' & Km' & Em') & (Nx' & Kx' & Ex')).
  pose proof (Forall_list_filter word32 is_finite _
                (view_word32 _ _ _ Hview)) as Hw.
  pose proof (Forall_list_filter word32 is_finite _
                (view_word32 _ _ _ Hview')) as Hw'.
  rewrite visited_fneg, filter_finite_fneg in Km', Kx' by exact Hview.
  rewrite min_key_fneg in Km'. rewrite max_key_fneg in Kx'.
  exists m, x, (m', x'). split; [exact R | split; [exact R' | ] ].
  split; cbn [fst snd]; apply same_number_key; try assumption.
  - exact (word32_seeded _ _ _ word32_infinity Hw' Em').
  - apply word32_fneg. exact (word32_seeded _ _ _ word32_neg_infinity Hw Ex).
  - now rewrite is_nan_fneg.
  - rewrite key_fneg. lia.
  - exact (word32_seeded _ _ _ word32_neg_infinity Hw' Ex').
  - apply word32_fneg. exact (word32_seeded _ _ _ word32_infinity Hw Em).
  - now rewrite is_nan_fneg.
  - rewrite key_fneg. lia.
Qed.

Lemma scanArray_of_negated_witness :
  valid_view buf_mixed 6 1 /\
  scanArray true 0 buf_mixed 6 1 = Some (one, five) /\
  scanArray true 2 (map fneg buf_mixed) 6 1 = Some (fneg five, fneg one) /\
  exists mn mx r',
    scanArray true 0 buf_mixed 6 1 = Some (mn, mx) /\
    scanArray true 2 (map fneg buf_mixed) 6 1 = Some r' /\
    same_value r' (fneg mx, fneg mn).
Proof.
  assert (Hv : valid_view buf_mixed 6 1) by solve_view.
  split; [exact Hv | ]. do 2 (split; [vm_compute; reflexivity | ]).
  exact (scanArray_of_negated true true 0 2 buf_mixed 6 1 Hv).
Defined.

Lemma min_key_filter_le (f : float32 -> bool) l :
  min_key l <= min_key (List.filter f l).
Proof.
  unfold min_key. induction l as [ | v l IH]; [reflexivity | ].
  cbn [List.filter]. destruct (f v); cbn [map fold_right]; lia.
Qed.

Lemma max_key_filter_le (f : float32 -> bool) l :
  max_key (List.filter f l) <= max_key l.
Proof.
  unfold max_key. induction l as [ | v l IH]; [reflexivity | ].
  cbn [List.filter]. destruct (f v); cbn [map fold_right]; lia.
Qed.

(** X15.  Scanning more elements never raises the minimum and never
    lowers the maximum: for a valid view of [a + b] elements the minimum
    over the first [a] elements is [>=] the minimum over all of them and
    the maximum over the first [a] is [<=] the maximum over all, the
    sentinel pair of an all-non-finite prefix included. *)
Theorem scanArray_range_grows (sse2 sse2' : bool) (mode mode' : Z)
    (values : list float32) (a b stride : N) :
  valid_view values (a + b) stride ->
  exists m1 x1 m x,
    scanArray sse2 mode values a stride = Some (m1, x1) /\
    scanArray sse2' mode' values (a + b) stride = Some (m, x) /\
    fle m m1 = true /\ fle x1 x = true.
Proof.
  intros Hview.
  assert (Hv1 : valid_view values a stride)
    by (apply (view_prefix values (a + b) stride Hview); lia).
  destruct (scanArray_acc sse2 mode _ _ _ Hv1)
    as (m1 & x1 & R1 & (Nm1 & Km1 & _) & (Nx1 & Kx1 & _)).
  destruct (scanArray_acc sse2' mode' _ _ _ Hview)
    as (m & x & R & (Nm & Km & _) & (Nx & Kx & _)).
  exists m1, x1, m, x. split; [exact R1 | split; [exact R | ] ].
  rewrite visited_app, List.filter_app in Km, Kx.
  rewrite min_key_app in Km. rewrite max_key_app in Kx.
  rewrite !fle_key, Nm, Nm1, Nx, Nx1. cbn. lia.
Qed.

Lemma scanArray_range_grows_witness :
  valid_view buf_mostly_nan (2 + 8) 1 /\
  scanArray true 0 buf_mostly_nan 2 1 = Some sentinel /\
  exists m1 x1 m x,
    scanArray true 0 buf_mostly_nan 2 1 = Some (m1, x1) /\
    scanArray true 0 buf_mostly_nan (2 + 8) 1 = Some (m, x) /\
    fle m m1 = true /\ fle x1 x = true.
Proof.
  assert (Hv : valid_view buf_mostly_nan (2 + 8) 1) by solve_view.
  split; [exact Hv | split; [vm_compute; reflexivity | ] ].
  exact (scanArray_range_grows true true 0 0 buf_mostly_nan 2 8 1 Hv).
Defined.

(** X16.  On a valid view without NaN the range reported by
    [unsafeScanArray] contains the range reported by [scanArray]: the
    unsafe minimum is [<=] the safe minimum and the safe maximum is [<=]
    the unsafe maximum (the two differ when an infinity is visited, or
    when nothing finite is). *)
Theorem unsafe_range_contains_safe (sse2 sse2' : bool) (mode mode' : Z)
    (values : list float32) (size stride : N) :
  valid_view values size stride ->
  Forall (fun v => is_nan v = false) (visited values size stride) ->
  exists um ux sm sx,
    unsafeScanArray sse2 mode values size stride = Some (um, ux) /\
    scanArray sse2' mode' values size stride = Some (sm, sx) /\
    fle um sm = true /\ fle sx ux = true.
Proof.
  intros Hview Hnan.
  destruct (unsafeScanArray_acc sse2 mode _ _ _ Hview Hnan)
    as (um & ux & Ru & (Num & Kum & _) & (Nux & Kux & _)).
  destruct (scanArray_acc sse2' mode' _ _ _ Hview)
    as (sm & sx & Rs & (Nsm & Ksm & _) & (Nsx & Ksx & _)).
  exists um, ux, sm, sx. split; [exact Ru | split; [exact Rs | ] ].
  pose proof (min_key_filter_le is_finite (visited values size stride)).
  pose proof (max_key_filter_le is_finite (visited values size stride)).
  rewrite !fle_key, Num, Nux, Nsm, Nsx. cbn. lia.
Qed.

Lemma unsafe_range_contains_safe_witness :
  valid_view buf_no_nan 10 1 /\
  Forall (fun v => is_nan v = false) (visited buf_no_nan 10 1) /\
  unsafeScanArray true 0 buf_no_nan 10 1 = Some (neg_infinity, infinity) /\
  scanArray true 0 buf_no_nan 10 1 = Some (neg_zero, nine) /\
  exists um ux sm sx,
    unsafeScanArray true 0 buf_no_nan 10 1 = Some (um, ux) /\
    scanArray true 0 buf_no_nan 10 1 = Some (sm, sx) /\
    fle um sm = true /\ fle sx ux = true.
Proof.
  assert (Hv : valid_view buf_no_nan 10 1) by solve_view.
  assert (Hn : Forall (fun v => is_nan v = false) (visited buf_no_nan 10 1))
    by solve_visited.
  split; [exact Hv | split; [exact Hn | ] ].
  do 2 (split; [vm_compute; reflexivity | ]).
  exact (unsafe_range_contains_safe true true 0 0 buf_no_nan 10 1 Hv Hn).
Defined.

(** X17.  The sentinel is unambiguous for [scanArray]: on a valid view
    the returned minimum is +Infinity exactly when no visited element is
    finite, and so is the returned maximum -Infinity; a caller that tests
    either component for its seed learns whether any finite value was
    seen. *)
Theorem scanArray_sentinel_iff (sse2 : bool) (mode : Z)
    (values : list float32) (size stride : N) :
  valid_view values size stride ->
  exists mn mx,
    scanArray sse2 mode values size stride = Some (mn, mx) /\
    (mn = infinity <->
     List.filter is_finite (visited values size stride) = []) /\
    (mx = neg_infinity <->
     List.filter is_finite (visited values size stride) = []).
Proof.
  intros Hview.
  destruct (scanArray_acc sse2 mode _ _ _ Hview) as (mn & mx & R & Hm & Hx).
  pose proof (Forall_list_filter word32 is_finite _
                (view_word32 _ _ _ Hview)) as Hw.
  pose proof (finite_list_not_nan (visited values size stride)) as Hn.
  exists mn, mx. split; [exact R | ].
  destruct (List.filter is_finite (visited values size stride))
    as [ | y F] eqn:EF.
  - apply acc_min_nil_inv in Hm. apply acc_max_nil_inv in Hx. tauto.
  - assert (Hfin : forall z, z ∈ y :: F -> is_finite z = true).
    { intros z Hz. rewrite <- EF in Hz.
      apply list_elem_of_In, filter_In in Hz. tauto. }
    destruct (acc_min_is_minimum _ _ Hw Hn ltac:(discriminate) Hm) as [Im _].
    destruct (acc_max_is_maximum _ _ Hw Hn ltac:(discriminate) Hx) as [Ix _].
    apply Hfin in Im, Ix.
    split; (split; [intros -> | discriminate]); discriminate.
Qed.

Lemma scanArray_sentinel_iff_witness :
  valid_view buf_mostly_nan 2 1 /\
  exists mn mx,
    scanArray true 0 buf_mostly_nan 2 1 = Some (mn, mx) /\
    (mn = infinity <->
     List.filter is_finite (visited buf_mostly_nan 2 1) = []) /\
    (mx = neg_infinity <->
     List.filter is_finite (visited buf_mostly_nan 2 1) = []).
Proof.
  assert (Hv : valid_view buf_mostly_nan 2 1) by solve_view.
  split; [exact Hv | ].
  exact (scanArray_sentinel_iff true 0 buf_mostly_nan 2 1 Hv).
Defined.
